(** * lavalink.js: a shallow embedding of Lavalink.js, Player.js and
      PlayerManager.js, and the properties of the specification checked on it.

    The JavaScript objects are modelled as records, JSON-like values (wire
    payloads, node messages, player state) as [Js.Val], insertion-ordered
    [Map]s as key-unique association lists ([JsMap]), plain objects used as
    dictionaries as [gmap], and object references (players, nodes) as
    addresses into a heap.  Event-loop deferrals ([process.nextTick],
    [setTimeout], promise reactions) are queues of reified tasks. *)

From Stdlib Require Import ZArith QArith Qabs Lia Sorted Permutation Ascii.
From stdpp Require Import base option list gmap strings pretty.

Local Open Scope string_scope.
Local Open Scope Z_scope.
Local Open Scope list_scope.

(** ** JavaScript values *)

Module Js.

(** *** Numbers *)

(** The values of [Number]: IEEE 754 binary64.  A finite number is a sign
    and a magnitude counted in units of 2^-1074, the least positive
    number; every finite double is a whole number of these units, below
    2^2098 of them. *)
Inductive double :=
| Fin (neg : bool) (m : Z)
| Inf (neg : bool)
| NaN.

(** The number 1, and the least magnitude that overflows, in units. *)
Definition unit : Z := 2 ^ 1074.
Definition overflow : Z := 2 ^ 2098.

(** [p / q] units, for [0 <= p] and [0 < q], rounded to the nearest
    double, ties to the even significand.  The doubles at or above 2^52
    units have a significand of 53 bits: they are [2 ^ s] units apart
    where the integer part of the quotient has [53 + s] bits. *)
Definition round (neg : bool) (p q : Z) : double :=
  let s := Z.max 0 (Z.log2 (p / q) - 52) in
  let den := q * 2 ^ s in
  let k := p / den in
  let r := p mod den in
  let k' := if Z.ltb (2 * r) den then k
            else if Z.ltb den (2 * r) then k + 1
            else if Z.even k then k else k + 1 in
  if Z.leb overflow (k' * 2 ^ s) then Inf neg else Fin neg (k' * 2 ^ s).

(** The double nearest to an integer, to a rational, to [s * 10 ^ e]. *)
Definition of_Z (z : Z) : double :=
  round (Z.ltb z 0) (Z.abs z * unit) 1.

Definition of_Q (q : Q) : double :=
  round (Z.ltb (Qnum q) 0) (Z.abs (Qnum q) * unit) (Z.pos (Qden q)).

Definition of_decimal (neg : bool) (s e : Z) : double :=
  if Z.leb 0 e then round neg (s * 10 ^ e * unit) 1
  else round neg (s * unit) (10 ^ (- e)).

Definition zero : double := Fin false 0.

Definition is_nan (x : double) : bool :=
  match x with NaN => true | _ => false end.

(** A finite number as a signed count of units. *)
Definition signed (neg : bool) (m : Z) : Z := if neg then - m else m.

Definition opp (x : double) : double :=
  match x with
  | Fin s m => Fin (negb s) m
  | Inf s => Inf (negb s)
  | NaN => NaN
  end.

(** [x + y]: exact sums that are zero are [+0], but for [-0 + -0]. *)
Definition add (x y : double) : double :=
  match x, y with
  | NaN, _ | _, NaN => NaN
  | Inf s, Inf s' => if Bool.eqb s s' then Inf s else NaN
  | Inf s, Fin _ _ => Inf s
  | Fin _ _, Inf s => Inf s
  | Fin s m, Fin s' m' =>
      let z := signed s m + signed s' m' in
      if Z.eqb z 0 then Fin (s && s' && Z.eqb m 0 && Z.eqb m' 0) 0
      else round (Z.ltb z 0) (Z.abs z) 1
  end.

Definition sub (x y : double) : double := add x (opp y).

Definition mul (x y : double) : double :=
  match x, y with
  | NaN, _ | _, NaN => NaN
  | Inf s, Inf s' => Inf (xorb s s')
  | Inf s, Fin s' m | Fin s' m, Inf s =>
      if Z.eqb m 0 then NaN else Inf (xorb s s')
  | Fin s m, Fin s' m' => round (xorb s s') (m * m') unit
  end.

Definition div (x y : double) : double :=
  match x, y with
  | NaN, _ | _, NaN => NaN
  | Inf _, Inf _ => NaN
  | Inf s, Fin s' _ => Inf (xorb s s')
  | Fin s _, Inf s' => Fin (xorb s s') 0
  | Fin s m, Fin s' m' =>
      if Z.eqb m' 0 then (if Z.eqb m 0 then NaN else Inf (xorb s s'))
      else round (xorb s s') (m * unit) m'
  end.

(** [x < y], [x <= y] and [x === y] on numbers: false when either is
    [NaN]; the two zeros are equal. *)
Definition ltb (x y : double) : bool :=
  match x, y with
  | NaN, _ | _, NaN => false
  | Inf s, Inf s' => s && negb s'
  | Inf s, Fin _ _ => s
  | Fin _ _, Inf s => negb s
  | Fin s m, Fin s' m' => Z.ltb (signed s m) (signed s' m')
  end.

Definition eqb (x y : double) : bool :=
  match x, y with
  | NaN, _ | _, NaN => false
  | Inf s, Inf s' => Bool.eqb s s'
  | Fin s m, Fin s' m' => Z.eqb (signed s m) (signed s' m')
  | _, _ => false
  end.

Definition leb (x y : double) : bool := ltb x y || eqb x y.

(** [x > 0]. *)
Definition positive (x : double) : bool := ltb zero x.

(** *** Numbers as text *)

(** [10 ^ e <= p / q], for positive [p] and [q]. *)
Definition pow10_le (e p q : Z) : bool :=
  if Z.leb 0 e then Z.leb (10 ^ e * q) p else Z.leb q (p * 10 ^ (- e)).

(** The integer part of the decimal logarithm of [p / q]. *)
Definition ilog10 (p q : Z) : Z :=
  let guess := (Z.log2 p - Z.log2 q) * 1233 / 4096 in
  default (guess - 3)
    (List.find (fun e => pow10_le e p q)
       [guess + 2; guess + 1; guess; guess - 1; guess - 2]).

(** The distance from [s * 10 ^ e] to [m] units. *)
Definition distance (m s e : Z) : Q :=
  Qabs (inject_Z s * (if Z.leb 0 e then inject_Z (10 ^ e)
                      else / inject_Z (10 ^ (- e)))
        - inject_Z m / inject_Z unit).

(** The decimals of [k] digits that read back as the double of [m] units:
    pairs [(n, s)] with [10 ^ (k - 1) <= s < 10 ^ k] standing for
    [s * 10 ^ (n - k)]. *)
Definition decimals (m k : Z) : list (Z * Z) :=
  flat_map
    (fun n =>
       let e := n - k in
       let lo := if Z.leb 0 e then m / (unit * 10 ^ e)
                 else (m * 10 ^ (- e)) / unit in
       List.filter
         (fun ns => Z.leb (10 ^ (k - 1)) ns.2 && Z.ltb ns.2 (10 ^ k)
                    && match of_decimal false ns.2 e with
                       | Fin _ m' => Z.eqb m' m
                       | _ => false
                       end)
         [(n, lo); (n, lo + 1)])
    [ilog10 m unit + 1; ilog10 m unit + 2].

(** Of two such decimals, the one nearer to the double; the even one when
    they are as near. *)
Definition nearer (m k : Z) (a b : Z * Z) : Z * Z :=
  match Qcompare (distance m a.2 (a.1 - k)) (distance m b.2 (b.1 - k)) with
  | Lt => a
  | Gt => b
  | Eq => if Z.even a.2 then a else b
  end.

(** The shortest decimal that reads back as the positive double of [m]
    units: [(n, k, s)] with [k] digits [s], standing for
    [s * 10 ^ (n - k)].  Seventeen digits tell any two doubles apart. *)
Fixpoint shortest_from (more : nat) (m k : Z) : Z * Z * Z :=
  match decimals m k with
  | a :: rest => let b := fold_left (nearer m k) rest a in (b.1, k, b.2)
  | [] =>
      match more with
      | O => (0, 1, 0)
      | S more' => shortest_from more' m (k + 1)
      end
  end.

Definition shortest (m : Z) : Z * Z * Z := shortest_from 16 m 1.

Fixpoint repeated (c : Ascii.ascii) (n : nat) : string :=
  match n with
  | O => EmptyString
  | S n' => String c (repeated c n')
  end.

Definition zeros (n : Z) : string := repeated "0"%char (Z.to_nat n).

(** [Number::toString(x)], radix 10. *)
Definition number_to_string (x : double) : string :=
  match x with
  | NaN => "NaN"
  | Inf s => if s then "-Infinity" else "Infinity"
  | Fin s m =>
      if Z.eqb m 0 then "0"
      else
        let '(n, k, d) := shortest m in
        let digits := pretty d in
        let body :=
          if Z.leb k n && Z.leb n 21 then digits +:+ zeros (n - k)
          else if Z.ltb 0 n && Z.leb n 21 then
            String.substring 0 (Z.to_nat n) digits +:+ "." +:+
            String.substring (Z.to_nat n) (Z.to_nat (k - n)) digits
          else if Z.ltb (-6) n && Z.leb n 0 then
            "0." +:+ zeros (- n) +:+ digits
          else
            let e := n - 1 in
            let exponent := (if Z.ltb e 0 then "-" else "+") +:+ pretty (Z.abs e) in
            if Z.eqb k 1 then digits +:+ "e" +:+ exponent
            else String.substring 0 1 digits +:+ "." +:+
                 String.substring 1 (Z.to_nat (k - 1)) digits +:+ "e" +:+ exponent
        in
        if s then "-" +:+ body else body
  end.

(** White space and line terminators, among the code units below 256. *)
Definition is_space (c : Ascii.ascii) : bool :=
  let n := Z.of_nat (Ascii.nat_of_ascii c) in
  (Z.leb 9 n && Z.leb n 13) || Z.eqb n 32 || Z.eqb n 160.

Fixpoint trim_left (s : string) : string :=
  match s with
  | String c s' => if is_space c then trim_left s' else s
  | EmptyString => EmptyString
  end.

Definition trim (s : string) : string :=
  String.rev (trim_left (String.rev (trim_left s))).

(** The value of a digit, letters counting from ten. *)
Definition digit_value (c : Ascii.ascii) : option Z :=
  let n := Z.of_nat (Ascii.nat_of_ascii c) in
  if Z.leb 48 n && Z.leb n 57 then Some (n - 48)
  else if Z.leb 97 n && Z.leb n 122 then Some (n - 87)
  else if Z.leb 65 n && Z.leb n 90 then Some (n - 55)
  else None.

(** The longest prefix of digits of the radix: its value, its length
    and what follows it. *)
Fixpoint read_digits (radix : Z) (s : string) (acc : Z) (len : nat)
  : Z * nat * string :=
  match s with
  | String c s' =>
      match digit_value c with
      | Some d => if Z.ltb d radix then read_digits radix s' (acc * radix + d) (S len)
                  else (acc, len, s)
      | None => (acc, len, s)
      end
  | EmptyString => (acc, len, s)
  end.

Definition is_char (c : Ascii.ascii) (s : string) : bool :=
  match s with
  | String c' EmptyString => Ascii.eqb c c'
  | _ => false
  end.

(** A leading sign: whether it is [-], and what follows it. *)
Definition read_sign (s : string) : bool * string :=
  match s with
  | String c s' =>
      if Ascii.eqb c "-"%char then (true, s')
      else if Ascii.eqb c "+"%char then (false, s')
      else (false, s)
  | EmptyString => (false, s)
  end.

(** [parseInt(s)] on a string, with no radix given: leading white space
    is skipped, a sign is read, a [0x] or [0X] prefix selects radix 16,
    and the digits are read as far as they go. *)
Definition parse_int (s : string) : double :=
  let '(neg, s1) := read_sign (trim_left s) in
  let '(radix, s2) :=
    match s1 with
    | String z (String x s') =>
        if Ascii.eqb z "0"%char && (Ascii.eqb x "x"%char || Ascii.eqb x "X"%char)
        then (16, s') else (10, s1)
    | _ => (10, s1)
    end in
  let '(value, len, _) := read_digits radix s2 0 0 in
  match len with
  | O => NaN
  | S _ => round neg (value * unit) 1
  end.

(** A prefixed integer literal: [0x], [0o] or [0b] and digits of the
    radix up to the end. *)
Definition prefixed (s : string) : option double :=
  match s with
  | String z (String x s') =>
      let radix :=
        if negb (Ascii.eqb z "0"%char) then 0
        else if Ascii.eqb x "x"%char || Ascii.eqb x "X"%char then 16
        else if Ascii.eqb x "o"%char || Ascii.eqb x "O"%char then 8
        else if Ascii.eqb x "b"%char || Ascii.eqb x "B"%char then 2
        else 0 in
      if Z.eqb radix 0 then None
      else
        let '(value, len, rest) := read_digits radix s' 0 0 in
        match len, rest with
        | S _, EmptyString => Some (round false (value * unit) 1)
        | _, _ => Some NaN
        end
  | _ => None
  end.

(** A decimal literal up to the end of the string: a sign, digits with
    or without a fraction, an exponent. *)
Definition decimal (s : string) : double :=
  let '(neg, s1) := read_sign s in
  if String.eqb s1 "Infinity" then Inf neg
  else
    let '(int, ni, s2) := read_digits 10 s1 0 0 in
    let '(frac, nf, s3) :=
      match s2 with
      | String c s' => if Ascii.eqb c "."%char then read_digits 10 s' 0 0
                       else (0, O, s2)
      | EmptyString => (0, O, s2)
      end in
    let exponent : option (Z * string) :=
      match s3 with
      | String c s' =>
          if Ascii.eqb c "e"%char || Ascii.eqb c "E"%char then
            let '(eneg, s4) := read_sign s' in
            let '(e, ne, s5) := read_digits 10 s4 0 0 in
            match ne with
            | O => None
            | S _ => Some (if eneg then - e else e, s5)
            end
          else Some (0, s3)
      | EmptyString => Some (0, s3)
      end in
    match (ni + nf)%nat, exponent with
    | S _, Some (e, EmptyString) =>
        let mantissa := int * 10 ^ Z.of_nat nf + frac in
        let e := e - Z.of_nat nf in
        if Z.eqb mantissa 0 then Fin neg 0
        else if Z.ltb 400 e then Inf neg
        else if Z.ltb e (- 400 - Z.of_nat (ni + nf)) then Fin neg 0
        else of_decimal neg mantissa e
    | _, _ => NaN
    end.

(** [StringToNumber(s)]. *)
Definition string_to_number (s : string) : double :=
  let s := trim s in
  if String.eqb s "" then zero
  else match prefixed s with
       | Some x => x
       | None => decimal s
       end.

(** *** Values *)

(** JSON-like values: what [JSON.parse] gives, arrays apart, and what the
    code builds from it. *)
#[warnings="-register-all"]
Inductive Val :=
| VUndef
| VNull
| VBool (b : bool)
| VNum (d : double)
| VStr (s : string)
| VObj (fields : list (string * Val)).

(** [ToBoolean]. *)
Definition truthy (v : Val) : bool :=
  match v with
  | VUndef | VNull => false
  | VBool b => b
  | VNum (Fin _ m) => negb (Z.eqb m 0)
  | VNum (Inf _) => true
  | VNum NaN => false
  | VStr s => negb (String.eqb s "")
  | VObj _ => true
  end.

Fixpoint alookup (k : string) (fs : list (string * Val)) : option Val :=
  match fs with
  | [] => None
  | (k', v) :: fs' => if String.eqb k k' then Some v else alookup k fs'
  end.

(** [o[k] = v] on the own properties of an object: an existing key keeps
    its place, a new key goes last. *)
Fixpoint aset (k : string) (v : Val) (fs : list (string * Val))
  : list (string * Val) :=
  match fs with
  | [] => [(k, v)]
  | (k', v') :: fs' =>
      if String.eqb k k' then (k, v) :: fs' else (k', v') :: aset k v fs'
  end.

(** [v.k] for the property names the code reads, none of which a
    primitive or [Object.prototype] has: [None] is the TypeError of
    reading a property of [undefined] or [null]; a missing property, or
    any of these properties of a primitive, is [undefined]. *)
Definition get (k : string) (v : Val) : option Val :=
  match v with
  | VUndef | VNull => None
  | VObj fs => Some (default VUndef (alookup k fs))
  | _ => Some VUndef
  end.

(** [v.k = x] in strict code: a TypeError on anything but an object. *)
Definition set (k : string) (x : Val) (v : Val) : option Val :=
  match v with
  | VObj fs => Some (VObj (aset k x fs))
  | _ => None
  end.

(** [Object.assign(target, source)] for an object target: the own
    properties of [source] are written in order; a [null] or [undefined]
    source contributes nothing, and neither does a number or a boolean;
    a string contributes its characters under their indices. *)
Fixpoint characters (i : Z) (s : string) : list (string * Val) :=
  match s with
  | EmptyString => []
  | String c s' => (pretty i, VStr (String c EmptyString)) :: characters (i + 1) s'
  end.

Definition assign (target : list (string * Val)) (source : Val)
  : list (string * Val) :=
  match source with
  | VObj fs => fold_left (fun acc kv => aset kv.1 kv.2 acc) fs target
  | VStr s => fold_left (fun acc kv => aset kv.1 kv.2 acc) (characters 0 s) target
  | _ => target
  end.

(** [v === "s"]. *)
Definition is_str (s : string) (v : Val) : bool :=
  match v with VStr s' => String.eqb s' s | _ => false end.

(** [v === n] for a number. *)
Definition is_num (n : double) (v : Val) : bool :=
  match v with VNum d => eqb d n | _ => false end.

(** [a === b].  Primitives are compared by value, numbers as doubles
    ([NaN] differs from itself, the two zeros are equal).  Two objects
    are the same object when they have the same properties in the same
    order: a value stands for the object, which has no other identity
    here. *)
Fixpoint strict_eq (a b : Val) : bool :=
  match a, b with
  | VUndef, VUndef => true
  | VNull, VNull => true
  | VBool x, VBool y => Bool.eqb x y
  | VNum x, VNum y => eqb x y
  | VStr x, VStr y => String.eqb x y
  | VObj f, VObj g =>
      (fix same (f g : list (string * Val)) : bool :=
         match f, g with
         | [], [] => true
         | (k, v) :: f', (k', v') :: g' =>
             String.eqb k k' && strict_eq v v' && same f' g'
         | _, _ => false
         end) f g
  | _, _ => false
  end.

(** A string or a [null]: the shape of [region] and [track]. *)
Definition of_ostr (o : option string) : Val :=
  match o with Some s => VStr s | None => VNull end.

(** [ToString] ([String(v)], template literals); an object is a plain
    one. *)
Definition to_string (v : Val) : string :=
  match v with
  | VStr s => s
  | VUndef => "undefined"
  | VNull => "null"
  | VBool b => if b then "true" else "false"
  | VNum d => number_to_string d
  | VObj _ => "[object Object]"
  end.

(** [ToNumber]. *)
Definition to_number (v : Val) : double :=
  match v with
  | VNum d => d
  | VUndef => NaN
  | VNull => zero
  | VBool b => if b then of_Z 1 else zero
  | VStr s => string_to_number s
  | VObj _ => NaN
  end.

(** [a || b]. *)
Definition or (a b : Val) : Val := if truthy a then a else b.

(** [a + b]: concatenation when either operand is a string or an
    object, the sum of the numbers otherwise. *)
Definition plus (a b : Val) : Val :=
  match a, b with
  | VStr _, _ | _, VStr _ | VObj _, _ | _, VObj _ =>
      VStr (to_string a +:+ to_string b)
  | _, _ => VNum (add (to_number a) (to_number b))
  end.

(** [parseInt(v)]. *)
Definition parseInt (v : Val) : double := parse_int (to_string v).

(** [s.replace(pat, rep)] for a string pattern: the first occurrence. *)
Fixpoint replace (pat rep s : string) : string :=
  if String.prefix pat s
  then String.append rep (String.substring (String.length pat)
                            (String.length s - String.length pat) s)
  else match s with
       | EmptyString => EmptyString
       | String c s' => String c (replace pat rep s')
       end.

End Js.

(** Integer and rational literals stand for the doubles nearest to them. *)
Coercion Js.of_Z : Z >-> Js.double.
Coercion Js.of_Q : Q >-> Js.double.

(** ** Insertion-ordered maps ([Map]) *)

Module JsMap.
Section Defs.
Context {K V : Type} `{EqDecision K}.

Definition t := list (K * V).

Definition empty : t := [].

Fixpoint get (k : K) (m : t) : option V :=
  match m with
  | [] => None
  | (k', v) :: m' => if decide (k = k') then Some v else get k m'
  end.

(** [Map.prototype.set]: an existing key keeps its position. *)
Fixpoint set (k : K) (v : V) (m : t) : t :=
  match m with
  | [] => [(k, v)]
  | (k', v') :: m' =>
      if decide (k = k') then (k, v) :: m' else (k', v') :: set k v m'
  end.

Fixpoint delete (k : K) (m : t) : t :=
  match m with
  | [] => []
  | (k', v') :: m' =>
      if decide (k = k') then delete k m' else (k', v') :: delete k m'
  end.

Definition keys (m : t) : list K := m.*1.
Definition values (m : t) : list V := m.*2.

(** Every key occurs once: what a [Map] guarantees. *)
Definition wf (m : t) : Prop := NoDup (keys m).

(** The number of entries stored under [k]. *)
Definition count (k : K) (m : t) : nat :=
  length (filter (fun kv => kv.1 = k) (m : list (K * V))).

End Defs.
Arguments t : clear implicits.
End JsMap.

(** ** Lavalink.js: the client of one node *)

Module Lavalink.

(** The constructor's [options]; an absent option is [None]. *)
Record Options := {
  o_host : string;
  o_port : option Z;
  o_region : option string;
  o_numShards : Z;
  o_userId : string;
  o_password : option string;
  o_timeout : option Z
}.

(** The fields of a [Lavalink] object ([address], made of [host] and
    [port], is left out).  [ws] is the socket the node currently holds
    ([delete this.ws] makes it [None]); the timer handle
    [reconnectInterval] stays set after its timer fired, as in the
    source.  No method sets [draining]: it is the application's to
    assign. *)
Record t := {
  host : string;
  port : Z;
  region : option string;
  userId : string;
  numShards : Z;
  password : string;
  connected : bool;
  draining : bool;
  retries : Z;
  reconnectTimeout : Z;
  reconnectInterval : option nat;
  stats : Js.Val;
  ws : option nat
}.

(** What a method does to the outside: sockets, timers, notifications.
    A method is given as the node it leaves and its effects in order. *)
Inductive Effect :=
| OpenSocket (sock : nat)
| SetTimeout (handle : nat) (delay : Z)
| ClearTimeout (handle : nat)
| Emit (ev : string) (arg : Js.Val)
| WsSend (sock : nat) (payload : Js.Val)
| WsRemoveCloseListener (sock : nat)
| WsClose (sock : nat).

Definition set_ws (x : option nat) (n : t) : t :=
  {| host := host n; port := port n; region := region n; userId := userId n;
     numShards := numShards n; password := password n;
     connected := connected n; draining := draining n; retries := retries n;
     reconnectTimeout := reconnectTimeout n;
     reconnectInterval := reconnectInterval n; stats := stats n; ws := x |}.

Definition set_connected (x : bool) (n : t) : t :=
  {| host := host n; port := port n; region := region n; userId := userId n;
     numShards := numShards n; password := password n;
     connected := x; draining := draining n; retries := retries n;
     reconnectTimeout := reconnectTimeout n;
     reconnectInterval := reconnectInterval n; stats := stats n; ws := ws n |}.

Definition set_retries (x : Z) (n : t) : t :=
  {| host := host n; port := port n; region := region n; userId := userId n;
     numShards := numShards n; password := password n;
     connected := connected n; draining := draining n; retries := x;
     reconnectTimeout := reconnectTimeout n;
     reconnectInterval := reconnectInterval n; stats := stats n; ws := ws n |}.

Definition set_reconnectInterval (x : option nat) (n : t) : t :=
  {| host := host n; port := port n; region := region n; userId := userId n;
     numShards := numShards n; password := password n;
     connected := connected n; draining := draining n; retries := retries n;
     reconnectTimeout := reconnectTimeout n;
     reconnectInterval := x; stats := stats n; ws := ws n |}.

Definition set_draining (x : bool) (n : t) : t :=
  {| host := host n; port := port n; region := region n; userId := userId n;
     numShards := numShards n; password := password n;
     connected := connected n; draining := x; retries := retries n;
     reconnectTimeout := reconnectTimeout n;
     reconnectInterval := reconnectInterval n; stats := stats n; ws := ws n |}.

Definition set_stats (x : Js.Val) (n : t) : t :=
  {| host := host n; port := port n; region := region n; userId := userId n;
     numShards := numShards n; password := password n;
     connected := connected n; draining := draining n; retries := retries n;
     reconnectTimeout := reconnectTimeout n;
     reconnectInterval := reconnectInterval n; stats := x; ws := ws n |}.

(** [x || d] on an optional number. *)
Definition or_num (x : option Z) (d : Z) : Z :=
  match x with Some v => if Z.eqb v 0 then d else v | None => d end.

(** [x || d] on an optional string. *)
Definition or_str (x : option string) : option string :=
  match x with Some s => if String.eqb s "" then None else Some s | None => None end.

(** [connect()]: a new socket replaces [this.ws]; the previous one, if
    any, is neither closed nor unsubscribed. *)
Definition connect (sock : nat) (n : t) : t * list Effect :=
  (set_ws (Some sock) n, [OpenSocket sock]).

(** [new Lavalink(options)]; [sock] is the socket [connect()] creates. *)
Definition constructor (o : Options) (sock : nat) : t * list Effect :=
  connect sock
    {| host := o_host o;
       port := or_num (o_port o) 80;
       region := or_str (o_region o);
       userId := o_userId o;
       numShards := o_numShards o;
       password := default "youshallnotpass" (or_str (o_password o));
       connected := false;
       draining := false;
       retries := 0;
       reconnectTimeout := or_num (o_timeout o) 5000;
       reconnectInterval := None;
       stats := Js.VObj [("players", Js.VNum 0); ("playingPlayers", Js.VNum 0)];
       ws := None |}.

(** [retryInterval()]. *)
Definition retryInterval (n : t) : Z :=
  let retries := Z.min (retries n - 1) 5 in
  (retries + 5) ^ 2 * 1000.

(** [reconnect()]; [handle] is the timer it sets, [sock] the socket of
    its [connect()]. *)
Definition reconnect (handle sock : nat) (n : t) : t * list Effect :=
  let interval := retryInterval n in
  let n1 := set_reconnectInterval (Some handle) n in
  let n2 := set_retries (retries n1 + 1) n1 in
  let '(n3, e) := connect sock n2 in
  (n3, SetTimeout handle interval :: e).

(** [destroy()]. *)
Definition destroy (n : t) : list Effect :=
  match ws n with
  | Some s => [WsRemoveCloseListener s; WsClose s]
  | None => []
  end.

(** [ready()], the socket's [open] listener. *)
Definition ready (n : t) : t * list Effect :=
  let '(n1, e1) :=
    match reconnectInterval n with
    | Some h => (set_reconnectInterval None n, [ClearTimeout h])
    | None => (n, [])
    end in
  (set_retries 0 (set_connected true n1), e1 ++ [Emit "ready" Js.VUndef]).

(** [disconnected()], the socket's [close] listener, up to and with its
    [emit('disconnect')]: what the listeners of the event see and what
    stays when one of them throws. *)
Definition disconnected_notice (n : t) : t * list Effect :=
  let n1 := set_connected false n in
  (n1, match reconnectInterval n1 with
       | None => [Emit "disconnect" Js.VUndef]
       | Some _ => []
       end).

(** The rest of [disconnected()], after the listeners returned; [handle]
    is the timer it may set. *)
Definition disconnected_rest (handle : nat) (n : t) : t * list Effect :=
  let n2 := set_ws None n in
  match reconnectInterval n2 with
  | None =>
      (set_reconnectInterval (Some handle) n2,
       [SetTimeout handle (reconnectTimeout n2)])
  | Some _ => (n2, [])
  end.

(** [disconnected()] when no listener throws. *)
Definition disconnected (handle : nat) (n : t) : t * list Effect :=
  let '(n1, e1) := disconnected_notice n in
  let '(n2, e2) := disconnected_rest handle n1 in
  (n2, e1 ++ e2).

(** [send(data)]: dropped when the node holds no socket.  Every [Js.Val]
    serialises, so the [catch] around [JSON.stringify] is never taken. *)
Definition send (data : Js.Val) (n : t) : list Effect :=
  match ws n with
  | None => []
  | Some s => [WsSend s data]
  end.

(** [onMessage(message)]; [data] is [JSON.parse(message)], [None] when
    the text does not parse.  The outer [None] is the TypeError of
    reading [op] of a parsed [null]. *)
Definition onMessage (data : option Js.Val) (n : t) : option (t * list Effect) :=
  match data with
  | None => Some (n, [Emit "error" (Js.VStr "Unable to parse ws message.")])
  | Some d =>
      op ← Js.get "op" d;
      let n1 := if Js.truthy op && Js.is_str "stats" op then set_stats d n else n in
      Some (n1, [Emit "message" d])
  end.

(** *** One connection over time *)

(** What the event loop delivers to a node: the [open] or [close] of one
    of its sockets, or the firing of its reconnect timer. *)
Inductive Event := Open | Close | Fire.

(** The delays of the timers set in a list of effects. *)
Definition delays (es : list Effect) : list Z :=
  omap (fun e => match e with SetTimeout _ d => Some d | _ => None end) es.

(** A node with the counter its fresh handles come from and the delays
    of the timers set since the connection was last ready (or since it
    was made), oldest first: [scheduled] has them all, [attempts] those
    set by [reconnect()]. *)
Record Conn := {
  node : t;
  fresh : nat;
  scheduled : list Z;
  attempts : list Z
}.

Definition boot (o : Options) : Conn :=
  {| node := (constructor o 0%nat).1; fresh := 1%nat; scheduled := [];
     attempts := [] |}.

Definition step (c : Conn) (ev : Event) : Conn :=
  match ev with
  | Open =>
      {| node := (ready (node c)).1; fresh := fresh c; scheduled := [];
         attempts := [] |}
  | Close =>
      let r := disconnected (fresh c) (node c) in
      {| node := r.1; fresh := S (fresh c);
         scheduled := scheduled c ++ delays r.2; attempts := attempts c |}
  | Fire =>
      let r := reconnect (fresh c) (S (fresh c)) (node c) in
      {| node := r.1; fresh := S (S (fresh c));
         scheduled := scheduled c ++ delays r.2;
         attempts := attempts c ++ delays r.2 |}
  end.

Definition run (o : Options) (evs : list Event) : Conn :=
  fold_left step evs (boot o).

(** The spec's formula, as a function of the retry count. *)
Definition backoff (retryCount : Z) : Z :=
  (Z.min (retryCount - 1) 5 + 5) ^ 2 * 1000.

(** What every run keeps: the retry count is the number of attempts since
    the connection was last ready, and attempt [i] was given the delay of
    the formula at retry count [i]. *)
Definition inv (c : Conn) : Prop :=
  exists k : nat,
    retries (node c) = Z.of_nat k /\
    attempts c = map backoff (seqZ 0 (Z.of_nat k)).

(** The timer fires only when one is recorded, as the event loop has
    it. *)
Fixpoint fires_armed (c : Conn) (evs : list Event) : bool :=
  match evs with
  | [] => true
  | ev :: evs' =>
      match ev with
      | Fire => bool_decide (is_Some (reconnectInterval (node c)))
      | _ => true
      end && fires_armed (step c ev) evs'
  end.

(** What every run keeps of the delays: with no timer recorded none was
    set since the connection was last ready; otherwise the delays are
    those of the attempts, after the delay of the [close] listener if it
    set one.  [timeout] is the delay that listener uses. *)
Definition inv_scheduled (timeout : Z) (c : Conn) : Prop :=
  reconnectTimeout (node c) = timeout /\
  match reconnectInterval (node c) with
  | None => scheduled c = [] /\ attempts c = []
  | Some _ => scheduled c = attempts c \/ scheduled c = timeout :: attempts c
  end.

End Lavalink.

(** ** Player.js: one voice session *)

Module Player.

(** The functions registered on a player.  [External n] is a listener of
    the library's user; the others are the closures PlayerManager
    registers: [voiceServerUpdate]'s [readyHandler] and
    [disconnectHandler] (one pair per call) and the one-shot [end]
    listener of [switchNode] with the listeners it restores.  [call]
    tells the closures of different calls apart. *)
#[warnings="-register-all"]
Inductive Listener :=
| External (n : nat)
| ReadyHandler (guildId : string) (call : nat)
| DisconnectHandler (guildId : string) (call : nat)
| RestoreEnd (call : nat) (saved : list Listener).

Record Registration := {
  r_event : string;
  r_fn : Listener;
  r_once : bool
}.

(** The fields of a [Player].  [node] is the address of the Lavalink
    object it is bound to; [track] and [lastTrack] are a string or
    [null]; [channelId] is whatever [join] or the gateway gave. *)
Record t := {
  id : string;
  node : nat;
  hostname : Js.Val;
  guildId : string;
  channelId : Js.Val;
  options : Js.Val;
  ready : bool;
  playing : bool;
  state : Js.Val;
  track : option string;
  lastTrack : option string;
  playOptions : Js.Val;
  receivedEvents : list Js.Val;
  sendQueue : list Js.Val;
  timestamp : Z;
  sessionId : Js.Val;
  event : Js.Val;
  listeners : list Registration
}.

(** Deferred calls ([process.nextTick]) a player schedules. *)
Inductive Task :=
| CheckEventQueue
| EmitReady
| EmitEnd (message : Js.Val).

(** What a method does outside the player. *)
Inductive Effect :=
| NodeSend (data : Js.Val)
| NextTick (task : Task)
| Emit (ev : string) (arg : Js.Val)
| GatewaySend (data : Js.Val)
| SwitchNode.

Definition set_node (x : nat) (p : t) : t :=
  {| id := id p; node := x; hostname := hostname p; guildId := guildId p;
     channelId := channelId p; options := options p; ready := ready p;
     playing := playing p; state := state p; track := track p;
     lastTrack := lastTrack p; playOptions := playOptions p;
     receivedEvents := receivedEvents p; sendQueue := sendQueue p;
     timestamp := timestamp p; sessionId := sessionId p; event := event p;
     listeners := listeners p |}.

Definition set_hostname (x : Js.Val) (p : t) : t :=
  {| id := id p; node := node p; hostname := x; guildId := guildId p;
     channelId := channelId p; options := options p; ready := ready p;
     playing := playing p; state := state p; track := track p;
     lastTrack := lastTrack p; playOptions := playOptions p;
     receivedEvents := receivedEvents p; sendQueue := sendQueue p;
     timestamp := timestamp p; sessionId := sessionId p; event := event p;
     listeners := listeners p |}.

Definition set_channelId (x : Js.Val) (p : t) : t :=
  {| id := id p; node := node p; hostname := hostname p;
     guildId := guildId p; channelId := x; options := options p;
     ready := ready p; playing := playing p; state := state p;
     track := track p; lastTrack := lastTrack p;
     playOptions := playOptions p; receivedEvents := receivedEvents p;
     sendQueue := sendQueue p; timestamp := timestamp p;
     sessionId := sessionId p; event := event p;
     listeners := listeners p |}.

Definition set_playing (x : bool) (p : t) : t :=
  {| id := id p; node := node p; hostname := hostname p;
     guildId := guildId p; channelId := channelId p; options := options p;
     ready := ready p; playing := x; state := state p; track := track p;
     lastTrack := lastTrack p; playOptions := playOptions p;
     receivedEvents := receivedEvents p; sendQueue := sendQueue p;
     timestamp := timestamp p; sessionId := sessionId p; event := event p;
     listeners := listeners p |}.

Definition set_state (x : Js.Val) (p : t) : t :=
  {| id := id p; node := node p; hostname := hostname p;
     guildId := guildId p; channelId := channelId p; options := options p;
     ready := ready p; playing := playing p; state := x; track := track p;
     lastTrack := lastTrack p; playOptions := playOptions p;
     receivedEvents := receivedEvents p; sendQueue := sendQueue p;
     timestamp := timestamp p; sessionId := sessionId p; event := event p;
     listeners := listeners p |}.

Definition set_track (x : option string) (p : t) : t :=
  {| id := id p; node := node p; hostname := hostname p;
     guildId := guildId p; channelId := channelId p; options := options p;
     ready := ready p; playing := playing p; state := state p; track := x;
     lastTrack := lastTrack p; playOptions := playOptions p;
     receivedEvents := receivedEvents p; sendQueue := sendQueue p;
     timestamp := timestamp p; sessionId := sessionId p; event := event p;
     listeners := listeners p |}.

Definition set_lastTrack (x : option string) (p : t) : t :=
  {| id := id p; node := node p; hostname := hostname p;
     guildId := guildId p; channelId := channelId p; options := options p;
     ready := ready p; playing := playing p; state := state p;
     track := track p; lastTrack := x; playOptions := playOptions p;
     receivedEvents := receivedEvents p; sendQueue := sendQueue p;
     timestamp := timestamp p; sessionId := sessionId p; event := event p;
     listeners := listeners p |}.

Definition set_playOptions (x : Js.Val) (p : t) : t :=
  {| id := id p; node := node p; hostname := hostname p;
     guildId := guildId p; channelId := channelId p; options := options p;
     ready := ready p; playing := playing p; state := state p;
     track := track p; lastTrack := lastTrack p; playOptions := x;
     receivedEvents := receivedEvents p; sendQueue := sendQueue p;
     timestamp := timestamp p; sessionId := sessionId p; event := event p;
     listeners := listeners p |}.

Definition set_receivedEvents (x : list Js.Val) (p : t) : t :=
  {| id := id p; node := node p; hostname := hostname p;
     guildId := guildId p; channelId := channelId p; options := options p;
     ready := ready p; playing := playing p; state := state p;
     track := track p; lastTrack := lastTrack p;
     playOptions := playOptions p; receivedEvents := x;
     sendQueue := sendQueue p; timestamp := timestamp p;
     sessionId := sessionId p; event := event p;
     listeners := listeners p |}.

Definition set_sendQueue (x : list Js.Val) (p : t) : t :=
  {| id := id p; node := node p; hostname := hostname p;
     guildId := guildId p; channelId := channelId p; options := options p;
     ready := ready p; playing := playing p; state := state p;
     track := track p; lastTrack := lastTrack p;
     playOptions := playOptions p; receivedEvents := receivedEvents p;
     sendQueue := x; timestamp := timestamp p; sessionId := sessionId p;
     event := event p; listeners := listeners p |}.

Definition set_timestamp (x : Z) (p : t) : t :=
  {| id := id p; node := node p; hostname := hostname p;
     guildId := guildId p; channelId := channelId p; options := options p;
     ready := ready p; playing := playing p; state := state p;
     track := track p; lastTrack := lastTrack p;
     playOptions := playOptions p; receivedEvents := receivedEvents p;
     sendQueue := sendQueue p; timestamp := x; sessionId := sessionId p;
     event := event p; listeners := listeners p |}.

Definition set_sessionId (x : Js.Val) (p : t) : t :=
  {| id := id p; node := node p; hostname := hostname p;
     guildId := guildId p; channelId := channelId p; options := options p;
     ready := ready p; playing := playing p; state := state p;
     track := track p; lastTrack := lastTrack p;
     playOptions := playOptions p; receivedEvents := receivedEvents p;
     sendQueue := sendQueue p; timestamp := timestamp p; sessionId := x;
     event := event p; listeners := listeners p |}.

Definition set_event (x : Js.Val) (p : t) : t :=
  {| id := id p; node := node p; hostname := hostname p;
     guildId := guildId p; channelId := channelId p; options := options p;
     ready := ready p; playing := playing p; state := state p;
     track := track p; lastTrack := lastTrack p;
     playOptions := playOptions p; receivedEvents := receivedEvents p;
     sendQueue := sendQueue p; timestamp := timestamp p;
     sessionId := sessionId p; event := x; listeners := listeners p |}.

Definition set_listeners (x : list Registration) (p : t) : t :=
  {| id := id p; node := node p; hostname := hostname p;
     guildId := guildId p; channelId := channelId p; options := options p;
     ready := ready p; playing := playing p; state := state p;
     track := track p; lastTrack := lastTrack p;
     playOptions := playOptions p; receivedEvents := receivedEvents p;
     sendQueue := sendQueue p; timestamp := timestamp p;
     sessionId := sessionId p; event := event p; listeners := x |}.

(** [new Player(id, data)]; [now] is [Date.now()]. *)
Definition constructor (id : string) (hostname : Js.Val) (guildId : string)
    (channelId : Js.Val) (node : nat) (options : Js.Val) (now : Z) : t :=
  {| id := id; node := node; hostname := hostname; guildId := guildId;
     channelId := channelId; options := options; ready := false;
     playing := false; state := Js.VObj []; track := None; lastTrack := None;
     playOptions := Js.VUndef; receivedEvents := []; sendQueue := [];
     timestamp := now; sessionId := Js.VUndef; event := Js.VUndef;
     listeners := [] |}.

(** [sendEvent(data)]. *)
Definition sendEvent (data : Js.Val) (p : t) : t * list Effect :=
  (set_receivedEvents (receivedEvents p ++ [data]) p,
   [NodeSend data; NextTick CheckEventQueue]).

(** [checkEventQueue()]. *)
Definition checkEventQueue (p : t) : t * list Effect :=
  match sendQueue p with
  | event :: rest => sendEvent event (set_sendQueue rest p)
  | [] => (p, [])
  end.

(** [queueEvent(data)]. *)
Definition queueEvent (data : Js.Val) (p : t) : t * list Effect :=
  match sendQueue p with
  | _ :: _ => (set_sendQueue (sendQueue p ++ [data]) p, [])
  | [] => sendEvent data p
  end.

(** A call that can throw: the player and the effects at the point it
    returned or threw, and what it threw. *)
Record Result := {
  after : t;
  effects : list Effect;
  thrown : option string
}.

Definition voiceUpdate_payload (guildId sessionId event : Js.Val) : Js.Val :=
  Js.VObj [("op", Js.VStr "voiceUpdate"); ("guildId", guildId);
           ("sessionId", sessionId); ("event", event)].

Definition disconnect_payload (guildId : string) : Js.Val :=
  Js.VObj [("op", Js.VStr "disconnect"); ("guildId", Js.VStr guildId)].

Definition play_payload (guildId : string) (track : option string)
    (options : Js.Val) : Js.Val :=
  Js.VObj (Js.assign [("op", Js.VStr "play"); ("guildId", Js.VStr guildId);
                      ("track", Js.of_ostr track)] options).

Definition stop_payload (guildId : string) : Js.Val :=
  Js.VObj [("op", Js.VStr "stop"); ("guildId", Js.VStr guildId)].

(** [connect(data)]; reading a field of a [data] that is [undefined] or
    [null] throws, after [connect] was emitted. *)
Definition connect (data : Js.Val) (p : t) : Result :=
  match Js.get "guildId" data, Js.get "sessionId" data, Js.get "event" data with
  | Some g, Some s, Some e =>
      let '(p1, es) := queueEvent (voiceUpdate_payload g s e) p in
      {| after := p1;
         effects := Emit "connect" Js.VUndef :: es ++ [NextTick EmitReady];
         thrown := None |}
  | _, _, _ =>
      {| after := p; effects := [Emit "connect" Js.VUndef];
         thrown := Some "TypeError: Cannot read property 'guildId' of undefined" |}
  end.

(** [disconnect(msg)]. *)
Definition disconnect (msg : Js.Val) (p : t) : t * list Effect :=
  let p1 := set_playing false p in
  let '(p2, es) := queueEvent (disconnect_payload (guildId p1)) p1 in
  (p2, es ++ [Emit "disconnect" msg]).

(** [play(track, options)]; [draining] is [this.node.draining] and [now]
    is [Date.now()].  On a draining node [this.state.position = 0] throws
    when the state is [undefined] or [null]. *)
Definition play (draining : bool) (now : Z) (track : option string)
    (options : Js.Val) (p : t) : Result :=
  let p1 := set_lastTrack (Player.track p) p in
  let p2 := set_track track p1 in
  let p3 := set_playOptions options p2 in
  if draining then
    match Js.set "position" (Js.VNum 0) (state p3) with
    | Some st =>
        {| after := set_state st p3; effects := [SwitchNode]; thrown := None |}
    | None =>
        {| after := p3; effects := [];
           thrown := Some "TypeError: Cannot set property 'position' of undefined" |}
    end
  else
    let '(p4, es) := queueEvent (play_payload (guildId p3) track options) p3 in
    {| after := set_timestamp now (set_playing true p4); effects := es;
       thrown := None |}.

(** [stop()]. *)
Definition stop (p : t) : t * list Effect :=
  let '(p1, es) := queueEvent (stop_payload (guildId p)) p in
  let p2 := set_playing false p1 in
  let p3 := set_lastTrack (track p2) p2 in
  (set_track None p3, es).

(** [stateUpdate(state)]. *)
Definition stateUpdate (state : Js.Val) (p : t) : t :=
  set_state state p.

(** [setPause(pause)], [seek(position)], [setVolume(volume)]: sent to the
    node directly, past the queue. *)
Definition setPause (pause : Js.Val) (p : t) : list Effect :=
  [NodeSend (Js.VObj [("op", Js.VStr "pause"); ("guildId", Js.VStr (guildId p));
                      ("pause", pause)])].

Definition seek (position : Js.Val) (p : t) : list Effect :=
  [NodeSend (Js.VObj [("op", Js.VStr "seek"); ("guildId", Js.VStr (guildId p));
                      ("position", position)])].

Definition setVolume (volume : Js.Val) (p : t) : list Effect :=
  [NodeSend (Js.VObj [("op", Js.VStr "volume"); ("guildId", Js.VStr (guildId p));
                      ("volume", volume)])].

(** [onTrackEnd(message)]; [message.reason] throws on a message that is
    [undefined] or [null]. *)
Definition onTrackEnd (message : Js.Val) (p : t) : Result :=
  match Js.get "reason" message with
  | Some reason =>
      let p1 :=
        if negb (Js.is_str "REPLACED" reason) then
          let q1 := set_playing false p in
          let q2 := set_lastTrack (track q1) q1 in
          set_track None q2
        else p in
      {| after := p1; effects := [Emit "end" message]; thrown := None |}
  | None =>
      {| after := p; effects := [];
         thrown := Some "TypeError: Cannot read property 'reason' of undefined" |}
  end.

(** [onTrackException(message)]. *)
Definition onTrackException (message : Js.Val) (p : t) : list Effect :=
  [Emit "error" message].

(** [onTrackStuck(message)]. *)
Definition onTrackStuck (message : Js.Val) (p : t) : t * list Effect :=
  let '(p1, es) := stop p in
  (p1, es ++ [NextTick (EmitEnd message)]).

(** [updateVoiceState(channelId, selfMute, selfDeaf)]. *)
Definition updateVoiceState (channelId : Js.Val)
    (selfMute selfDeaf : bool) (p : t) : list Effect :=
  [GatewaySend
     (Js.VObj [("op", Js.VNum 4);
               ("d", Js.VObj
                  [("guild_id",
                    if String.eqb (id p) "call" then Js.VNull else Js.VStr (id p));
                   ("channel_id", Js.or channelId Js.VNull);
                   ("self_mute", Js.VBool selfMute);
                   ("self_deaf", Js.VBool selfDeaf)])])].

(** [switchChannel(channelId, reactive)]; [reactive] is
    [reactive === true]. *)
Definition switchChannel (channelId : Js.Val) (reactive : bool)
    (p : t) : t * list Effect :=
  if Js.strict_eq (Player.channelId p) channelId then (p, [])
  else
    let p1 := set_channelId channelId p in
    (p1, if reactive then updateVoiceState channelId false false p1 else []).

(** [getTimestamp()]. *)
Definition getTimestamp (now : Z) (p : t) : Z := now - timestamp p.

(** *** One session and its node over time *)

(** What the library's user and the event loop do to one session:
    the methods that enqueue a command, a raw [queueEvent], and the run of
    one scheduled [checkEventQueue] callback.  [Play] carries the
    [draining] flag of the bound node at the call. *)
Inductive Act :=
| Submit (data : Js.Val)
| Connect (data : Js.Val)
| Disconnect (msg : Js.Val)
| Play (draining : bool) (now : Z) (track : option string) (options : Js.Val)
| Stop
| Drain.

(** A player, the number of [checkEventQueue] callbacks waiting in the
    tick queue, and the arguments of the [node.send] calls so far. *)
Record Session := {
  player : t;
  ticks : nat;
  delivered : list Js.Val
}.

Definition effect (s : Session) (e : Effect) : Session :=
  match e with
  | NodeSend d =>
      {| player := player s; ticks := ticks s; delivered := delivered s ++ [d] |}
  | NextTick CheckEventQueue =>
      {| player := player s; ticks := S (ticks s); delivered := delivered s |}
  | _ => s
  end.

Definition commit (s : Session) (r : t * list Effect) : Session :=
  fold_left effect r.2
    {| player := r.1; ticks := ticks s; delivered := delivered s |}.

Definition step (s : Session) (a : Act) : Session :=
  match a with
  | Submit d => commit s (queueEvent d (player s))
  | Connect d =>
      commit s (after (connect d (player s)), effects (connect d (player s)))
  | Disconnect m => commit s (disconnect m (player s))
  | Play dr now tr o =>
      commit s (after (play dr now tr o (player s)),
                effects (play dr now tr o (player s)))
  | Stop => commit s (stop (player s))
  | Drain =>
      match ticks s with
      | O => s
      | S k =>
          commit {| player := player s; ticks := k; delivered := delivered s |}
                 (checkEventQueue (player s))
      end
  end.

Definition run (s : Session) (acts : list Act) : Session :=
  fold_left step acts s.

(** The commands a call hands to [queueEvent], for a player of guild
    [g]. *)
Definition commands (g : string) (a : Act) : list Js.Val :=
  match a with
  | Submit d => [d]
  | Connect d =>
      match Js.get "guildId" d, Js.get "sessionId" d, Js.get "event" d with
      | Some gi, Some s, Some e => [voiceUpdate_payload gi s e]
      | _, _, _ => []
      end
  | Disconnect _ => [disconnect_payload g]
  | Play dr _ tr o => if dr then [] else [play_payload g tr o]
  | Stop => [stop_payload g]
  | Drain => []
  end.

Definition submitted (g : string) (acts : list Act) : list Js.Val :=
  concat (map (commands g) acts).

Definition start (p : t) : Session :=
  {| player := p; ticks := O; delivered := [] |}.

(** The commands handed to the node followed by those still queued. *)
Definition history (s : Session) : list Js.Val :=
  delivered s ++ sendQueue (player s).

(** The queue of a player only grows when it is not empty: a session whose
    queue is empty, and whose sent commands are all in [receivedEvents],
    stays so. *)
Definition flushed (s : Session) : Prop :=
  sendQueue (player s) = [] /\ receivedEvents (player s) = delivered s.

End Player.

(** ** PlayerManager.js: the registry of sessions and the pool of nodes *)

Module PlayerManager.

(** Keys of the registry.  [Map] keys are arbitrary values: the code
    stores players under guild ids, and also looks up or deletes under a
    player object ([leave]) and under whatever a message carries.
    [KOther] stands for every key that is neither a string nor a player. *)
Inductive Key :=
| KStr (s : string)
| KPlayer (ref : nat)
| KOther.

#[global] Instance Key_eq_dec : EqDecision Key.
Proof. solve_decision. Defined.

Definition key_of (v : Js.Val) : Key :=
  match v with Js.VStr s => KStr s | _ => KOther end.

(** The manager's [options] and what it reads of the Discord client. *)
Record Config := {
  failoverRate : Z;
  failoverLimit : Z;
  defaultRegion : option string;
  reconnectThreshold : option Z;
  regions : list (string * list string);
  clientUserId : string;
  clientSessionID : Js.Val;
  clientStatus : Z;
  clientGuilds : list string;
  clientChannels : list string
}.

(** A socket of a node: the frames written to it, whether the node's
    [close] listener is still attached, whether [close()] was called. *)
Record Socket := {
  s_node : nat;
  s_frames : list Js.Val;
  s_closeListener : bool;
  s_closed : bool
}.

(** What a join promise is chained to: nothing the library knows of (the
    caller's own reactions), or the [then]/[catch] pair of [switchNode]
    with the variables it closes over. *)
Inductive Cont :=
| Caller
| Rejoined (player : nat) (guildId : string) (track : option string)
           (position : Js.Val).

Inductive Outcome :=
| Resolved (player : nat)
| Rejected (err : Js.Val).

Record Promise := {
  pr_cont : Cont;
  pr_outcome : option Outcome
}.

(** An entry of [pendingGuilds]: [res] and [rej] are the two functions of
    promise [pg_promise]; [pg_timeout] is the timer handle or [null]. *)
Record Pending := {
  pg_channelId : Js.Val;
  pg_options : Js.Val;
  pg_player : option nat;
  pg_node : nat;
  pg_promise : nat;
  pg_timeout : option nat
}.

(** The functions queued for failover: [switchNode] bound to a player. *)
Inductive Job :=
| SwitchNodeJob (player : nat) (leave : bool).

Inductive TimerTask :=
| JoinTimeout (guildId : string) (node : nat) (promise : nat)
| CheckFailover
| Reconnect (node : nat).

Record Timer := {
  t_handle : nat;
  t_due : Z;
  t_task : TimerTask
}.

(** [process.nextTick] callbacks. *)
Inductive Tick :=
| PlayerTick (player : nat) (task : Player.Task)
| Rejoin (player : nat) (guildId : string) (channelId : Js.Val)
         (track : option string) (position : Js.Val).

(** Promise jobs: the rest of [join] after its [await], and the reaction
    of a settled promise. *)
Inductive Micro :=
| JoinResume (guildId : string) (channelId : Js.Val)
             (options : Js.Val) (player : option nat) (node : option nat)
             (promise : nat)
| Settled (promise : nat).

(** A call of a listener of the library's user. *)
Record Notice := {
  n_player : nat;
  n_listener : nat;
  n_event : string;
  n_arg : Js.Val
}.

(** The manager, the objects it reaches, the event loop and the traces of
    what left the process.  [jobLog] records when each failover job ran;
    [uncaught] records the exceptions that reached the event loop. *)
Record World := {
  now : Z;
  fresh : nat;
  config : Config;
  lavalinks : gmap nat Lavalink.t;
  sockets : gmap nat Socket;
  players : gmap nat Player.t;
  registry : JsMap.t Key nat;
  nodes : JsMap.t string nat;
  pendingGuilds : gmap string Pending;
  failoverQueue : list Job;
  timers : list Timer;
  ticks : list Tick;
  micro : list Micro;
  promises : gmap nat Promise;
  gateway : list Js.Val;
  clientErrors : list Js.Val;
  notices : list Notice;
  jobLog : list (Z * Job);
  uncaught : list string
}.

Definition set_now (x : Z) (w : World) : World :=
  {| now := x; fresh := fresh w; config := config w;
     lavalinks := lavalinks w; sockets := sockets w; players := players w;
     registry := registry w; nodes := nodes w;
     pendingGuilds := pendingGuilds w; failoverQueue := failoverQueue w;
     timers := timers w; ticks := ticks w; micro := micro w;
     promises := promises w; gateway := gateway w;
     clientErrors := clientErrors w; notices := notices w;
     jobLog := jobLog w; uncaught := uncaught w |}.

Definition set_fresh (x : nat) (w : World) : World :=
  {| now := now w; fresh := x; config := config w;
     lavalinks := lavalinks w; sockets := sockets w; players := players w;
     registry := registry w; nodes := nodes w;
     pendingGuilds := pendingGuilds w; failoverQueue := failoverQueue w;
     timers := timers w; ticks := ticks w; micro := micro w;
     promises := promises w; gateway := gateway w;
     clientErrors := clientErrors w; notices := notices w;
     jobLog := jobLog w; uncaught := uncaught w |}.

Definition set_lavalinks (x : gmap nat Lavalink.t) (w : World) : World :=
  {| now := now w; fresh := fresh w; config := config w; lavalinks := x;
     sockets := sockets w; players := players w; registry := registry w;
     nodes := nodes w; pendingGuilds := pendingGuilds w;
     failoverQueue := failoverQueue w; timers := timers w;
     ticks := ticks w; micro := micro w; promises := promises w;
     gateway := gateway w; clientErrors := clientErrors w;
     notices := notices w; jobLog := jobLog w; uncaught := uncaught w |}.

Definition set_sockets (x : gmap nat Socket) (w : World) : World :=
  {| now := now w; fresh := fresh w; config := config w;
     lavalinks := lavalinks w; sockets := x; players := players w;
     registry := registry w; nodes := nodes w;
     pendingGuilds := pendingGuilds w; failoverQueue := failoverQueue w;
     timers := timers w; ticks := ticks w; micro := micro w;
     promises := promises w; gateway := gateway w;
     clientErrors := clientErrors w; notices := notices w;
     jobLog := jobLog w; uncaught := uncaught w |}.

Definition set_players (x : gmap nat Player.t) (w : World) : World :=
  {| now := now w; fresh := fresh w; config := config w;
     lavalinks := lavalinks w; sockets := sockets w; players := x;
     registry := registry w; nodes := nodes w;
     pendingGuilds := pendingGuilds w; failoverQueue := failoverQueue w;
     timers := timers w; ticks := ticks w; micro := micro w;
     promises := promises w; gateway := gateway w;
     clientErrors := clientErrors w; notices := notices w;
     jobLog := jobLog w; uncaught := uncaught w |}.

Definition set_registry (x : JsMap.t Key nat) (w : World) : World :=
  {| now := now w; fresh := fresh w; config := config w;
     lavalinks := lavalinks w; sockets := sockets w; players := players w;
     registry := x; nodes := nodes w; pendingGuilds := pendingGuilds w;
     failoverQueue := failoverQueue w; timers := timers w;
     ticks := ticks w; micro := micro w; promises := promises w;
     gateway := gateway w; clientErrors := clientErrors w;
     notices := notices w; jobLog := jobLog w; uncaught := uncaught w |}.

Definition set_nodes (x : JsMap.t string nat) (w : World) : World :=
  {| now := now w; fresh := fresh w; config := config w;
     lavalinks := lavalinks w; sockets := sockets w; players := players w;
     registry := registry w; nodes := x; pendingGuilds := pendingGuilds w;
     failoverQueue := failoverQueue w; timers := timers w;
     ticks := ticks w; micro := micro w; promises := promises w;
     gateway := gateway w; clientErrors := clientErrors w;
     notices := notices w; jobLog := jobLog w; uncaught := uncaught w |}.

Definition set_pendingGuilds (x : gmap string Pending) (w : World) : World :=
  {| now := now w; fresh := fresh w; config := config w;
     lavalinks := lavalinks w; sockets := sockets w; players := players w;
     registry := registry w; nodes := nodes w; pendingGuilds := x;
     failoverQueue := failoverQueue w; timers := timers w;
     ticks := ticks w; micro := micro w; promises := promises w;
     gateway := gateway w; clientErrors := clientErrors w;
     notices := notices w; jobLog := jobLog w; uncaught := uncaught w |}.

Definition set_failoverQueue (x : list Job) (w : World) : World :=
  {| now := now w; fresh := fresh w; config := config w;
     lavalinks := lavalinks w; sockets := sockets w; players := players w;
     registry := registry w; nodes := nodes w;
     pendingGuilds := pendingGuilds w; failoverQueue := x;
     timers := timers w; ticks := ticks w; micro := micro w;
     promises := promises w; gateway := gateway w;
     clientErrors := clientErrors w; notices := notices w;
     jobLog := jobLog w; uncaught := uncaught w |}.

Definition set_timers (x : list Timer) (w : World) : World :=
  {| now := now w; fresh := fresh w; config := config w;
     lavalinks := lavalinks w; sockets := sockets w; players := players w;
     registry := registry w; nodes := nodes w;
     pendingGuilds := pendingGuilds w; failoverQueue := failoverQueue w;
     timers := x; ticks := ticks w; micro := micro w;
     promises := promises w; gateway := gateway w;
     clientErrors := clientErrors w; notices := notices w;
     jobLog := jobLog w; uncaught := uncaught w |}.

Definition set_ticks (x : list Tick) (w : World) : World :=
  {| now := now w; fresh := fresh w; config := config w;
     lavalinks := lavalinks w; sockets := sockets w; players := players w;
     registry := registry w; nodes := nodes w;
     pendingGuilds := pendingGuilds w; failoverQueue := failoverQueue w;
     timers := timers w; ticks := x; micro := micro w;
     promises := promises w; gateway := gateway w;
     clientErrors := clientErrors w; notices := notices w;
     jobLog := jobLog w; uncaught := uncaught w |}.

Definition set_micro (x : list Micro) (w : World) : World :=
  {| now := now w; fresh := fresh w; config := config w;
     lavalinks := lavalinks w; sockets := sockets w; players := players w;
     registry := registry w; nodes := nodes w;
     pendingGuilds := pendingGuilds w; failoverQueue := failoverQueue w;
     timers := timers w; ticks := ticks w; micro := x;
     promises := promises w; gateway := gateway w;
     clientErrors := clientErrors w; notices := notices w;
     jobLog := jobLog w; uncaught := uncaught w |}.

Definition set_promises (x : gmap nat Promise) (w : World) : World :=
  {| now := now w; fresh := fresh w; config := config w;
     lavalinks := lavalinks w; sockets := sockets w; players := players w;
     registry := registry w; nodes := nodes w;
     pendingGuilds := pendingGuilds w; failoverQueue := failoverQueue w;
     timers := timers w; ticks := ticks w; micro := micro w; promises := x;
     gateway := gateway w; clientErrors := clientErrors w;
     notices := notices w; jobLog := jobLog w; uncaught := uncaught w |}.

Definition set_gateway (x : list Js.Val) (w : World) : World :=
  {| now := now w; fresh := fresh w; config := config w;
     lavalinks := lavalinks w; sockets := sockets w; players := players w;
     registry := registry w; nodes := nodes w;
     pendingGuilds := pendingGuilds w; failoverQueue := failoverQueue w;
     timers := timers w; ticks := ticks w; micro := micro w;
     promises := promises w; gateway := x; clientErrors := clientErrors w;
     notices := notices w; jobLog := jobLog w; uncaught := uncaught w |}.

Definition set_clientErrors (x : list Js.Val) (w : World) : World :=
  {| now := now w; fresh := fresh w; config := config w;
     lavalinks := lavalinks w; sockets := sockets w; players := players w;
     registry := registry w; nodes := nodes w;
     pendingGuilds := pendingGuilds w; failoverQueue := failoverQueue w;
     timers := timers w; ticks := ticks w; micro := micro w;
     promises := promises w; gateway := gateway w; clientErrors := x;
     notices := notices w; jobLog := jobLog w; uncaught := uncaught w |}.

Definition set_notices (x : list Notice) (w : World) : World :=
  {| now := now w; fresh := fresh w; config := config w;
     lavalinks := lavalinks w; sockets := sockets w; players := players w;
     registry := registry w; nodes := nodes w;
     pendingGuilds := pendingGuilds w; failoverQueue := failoverQueue w;
     timers := timers w; ticks := ticks w; micro := micro w;
     promises := promises w; gateway := gateway w;
     clientErrors := clientErrors w; notices := x; jobLog := jobLog w;
     uncaught := uncaught w |}.

Definition set_jobLog (x : list (Z * Job)) (w : World) : World :=
  {| now := now w; fresh := fresh w; config := config w;
     lavalinks := lavalinks w; sockets := sockets w; players := players w;
     registry := registry w; nodes := nodes w;
     pendingGuilds := pendingGuilds w; failoverQueue := failoverQueue w;
     timers := timers w; ticks := ticks w; micro := micro w;
     promises := promises w; gateway := gateway w;
     clientErrors := clientErrors w; notices := notices w; jobLog := x;
     uncaught := uncaught w |}.

Definition set_uncaught (x : list string) (w : World) : World :=
  {| now := now w; fresh := fresh w; config := config w;
     lavalinks := lavalinks w; sockets := sockets w; players := players w;
     registry := registry w; nodes := nodes w;
     pendingGuilds := pendingGuilds w; failoverQueue := failoverQueue w;
     timers := timers w; ticks := ticks w; micro := micro w;
     promises := promises w; gateway := gateway w;
     clientErrors := clientErrors w; notices := notices w;
     jobLog := jobLog w; uncaught := x |}.

(** *** State and exceptions *)

(** A computation changes the world and returns or throws; the changes
    made before a throw stay. *)
Inductive Result (A : Type) :=
| Ok (a : A) (w : World)
| Throw (e : string) (w : World).
Arguments Ok {A} a w.
Arguments Throw {A} e w.

Definition M (A : Type) : Type := World -> Result A.

Definition ret {A} (a : A) : M A := fun w => Ok a w.

Definition bind {A B} (m : M A) (k : A -> M B) : M B :=
  fun w => match m w with
           | Ok a w' => k a w'
           | Throw e w' => Throw e w'
           end.

Definition throw {A} (e : string) : M A := fun w => Throw e w.

Definition gets {A} (f : World -> A) : M A := fun w => Ok (f w) w.

Definition modify (f : World -> World) : M unit := fun w => Ok tt (f w).

Definition final {A} (r : Result A) : World :=
  match r with Ok _ w => w | Throw _ w => w end.

(** [try { m } catch { }]. *)
Definition swallow (m : M unit) : M unit :=
  fun w => Ok tt (final (m w)).

(** [try { m } catch (e) { h(e) }]. *)
Definition catch {A} (m : M A) (h : string -> M A) : M A :=
  fun w => match m w with
           | Ok a w' => Ok a w'
           | Throw e w' => h e w'
           end.

(** An entry point of the event loop: an exception that escapes is
    recorded. *)
Definition top (m : M unit) (w : World) : World :=
  match m w with
  | Ok _ w' => w'
  | Throw e w' => set_uncaught (uncaught w' ++ [e]) w'
  end.

Notation "'let!' x ':=' m 'in' k" := (bind m (fun x => k))
  (at level 10, x name, m at level 100, k at level 200).

Fixpoint for_each {A} (l : list A) (f : A -> M unit) : M unit :=
  match l with
  | [] => ret tt
  | a :: l' => let! _ := f a in for_each l' f
  end.

Definition the {A} (e : string) (o : option A) : M A :=
  match o with Some a => ret a | None => throw e end.

(** *** Objects, timers and queues *)

Definition alloc : M nat :=
  let! n := gets fresh in
  let! _ := modify (set_fresh (S n)) in
  ret n.

Definition player_of (ref : nat) : M Player.t :=
  let! p := gets (fun w => players w !! ref) in
  the "TypeError: not a player" p.

Definition put_player (ref : nat) (p : Player.t) : M unit :=
  modify (fun w => set_players (<[ref := p]> (players w)) w).

Definition node_of (ref : nat) : M Lavalink.t :=
  let! n := gets (fun w => lavalinks w !! ref) in
  the "TypeError: not a node" n.

Definition put_node (ref : nat) (n : Lavalink.t) : M unit :=
  modify (fun w => set_lavalinks (<[ref := n]> (lavalinks w)) w).

(** [setTimeout(task, delay)]. *)
Definition setTimeout (task : TimerTask) (delay : Z) : M nat :=
  let! h := alloc in
  let! _ := modify (fun w =>
    set_timers (timers w ++ [{| t_handle := h; t_due := now w + delay;
                                t_task := task |}]) w) in
  ret h.

Definition clearTimeout (h : nat) : M unit :=
  modify (fun w =>
    set_timers (filter (fun t => t_handle t <> h) (timers w)) w).

Definition nextTick (t : Tick) : M unit :=
  modify (fun w => set_ticks (ticks w ++ [t]) w).

Definition enqueue (m : Micro) : M unit :=
  modify (fun w => set_micro (micro w ++ [m]) w).

(** [this.client.ws.send(data)]. *)
Definition gateway_send (data : Js.Val) : M unit :=
  modify (fun w => set_gateway (gateway w ++ [data]) w).

(** [this.client.emit('error', err)]. *)
Definition client_error (err : Js.Val) : M unit :=
  modify (fun w => set_clientErrors (clientErrors w ++ [err]) w).

Definition on_socket (sock : nat) (f : Socket -> Socket) : M unit :=
  modify (fun w => set_sockets (alter f sock (sockets w)) w).

(** The socket and timer effects of a method of node [ref].  What the
    node emits is dispatched to the manager's listeners by [node_emit]
    below. *)
Definition node_effect (ref : nat) (e : Lavalink.Effect) : M unit :=
  match e with
  | Lavalink.OpenSocket s =>
      modify (fun w =>
        set_sockets (<[s := {| s_node := ref; s_frames := [];
                               s_closeListener := true;
                               s_closed := false |}]> (sockets w)) w)
  | Lavalink.SetTimeout h d =>
      modify (fun w =>
        set_timers (timers w ++ [{| t_handle := h; t_due := now w + d;
                                    t_task := Reconnect ref |}]) w)
  | Lavalink.ClearTimeout h => clearTimeout h
  | Lavalink.WsSend s d =>
      on_socket s (fun k =>
        {| s_node := s_node k; s_frames := s_frames k ++ [d];
           s_closeListener := s_closeListener k; s_closed := s_closed k |})
  | Lavalink.WsRemoveCloseListener s =>
      on_socket s (fun k =>
        {| s_node := s_node k; s_frames := s_frames k;
           s_closeListener := false; s_closed := s_closed k |})
  | Lavalink.WsClose s =>
      on_socket s (fun k =>
        {| s_node := s_node k; s_frames := s_frames k;
           s_closeListener := s_closeListener k; s_closed := true |})
  | Lavalink.Emit _ _ => ret tt
  end.

(** [node.send(data)] on the node at [ref]. *)
Definition node_send (ref : nat) (data : Js.Val) : M unit :=
  let! n := node_of ref in
  for_each (Lavalink.send data n) (node_effect ref).

(** [res(player)] and [rej(err)] of a promise: the first call settles
    it and queues its reaction, later calls do nothing. *)
Definition settle (pr : nat) (o : Outcome) : M unit :=
  let! p := gets (fun w => promises w !! pr) in
  match p with
  | Some {| pr_cont := c; pr_outcome := None |} =>
      let! _ := modify (fun w =>
        set_promises (<[pr := {| pr_cont := c; pr_outcome := Some o |}]>
                        (promises w)) w) in
      match c with
      | Caller => ret tt
      | Rejoined _ _ _ _ => enqueue (Settled pr)
      end
  | _ => ret tt
  end.

Definition new_promise (c : Cont) : M nat :=
  let! pr := alloc in
  let! _ := modify (fun w =>
    set_promises (<[pr := {| pr_cont := c; pr_outcome := None |}]>
                    (promises w)) w) in
  ret pr.

Definition error (message : string) : Js.Val :=
  Js.VObj [("name", Js.VStr "Error"); ("message", Js.VStr message)].

(** [this.get(key)], [this.set(key, player)], [this.delete(key)]. *)
Definition reg_get (k : Key) : M (option nat) :=
  gets (fun w => JsMap.get k (registry w)).

Definition reg_set (k : Key) (ref : nat) : M unit :=
  modify (fun w => set_registry (JsMap.set k ref (registry w)) w).

Definition reg_delete (k : Key) : M unit :=
  modify (fun w => set_registry (JsMap.delete k (registry w)) w).

Definition pending_of (guildId : string) : M (option Pending) :=
  gets (fun w => pendingGuilds w !! guildId).

Definition pending_delete (guildId : string) : M unit :=
  modify (fun w => set_pendingGuilds (delete guildId (pendingGuilds w)) w).

(** *** Listeners of a player *)

(** The identity of a function value: the closure it is, not what it
    holds. *)
Definition fn_id (l : Player.Listener) : nat * nat * string :=
  match l with
  | Player.External n => (0%nat, n, "")
  | Player.ReadyHandler g c => (1%nat, c, g)
  | Player.DisconnectHandler g c => (2%nat, c, g)
  | Player.RestoreEnd c _ => (3%nat, c, "")
  end.

Definition same_fn (a b : Player.Listener) : bool :=
  bool_decide (fn_id a = fn_id b).

Definition add_listener (ref : nat) (ev : string) (fn : Player.Listener)
    (once : bool) : M unit :=
  let! p := player_of ref in
  put_player ref
    (Player.set_listeners
       (Player.listeners p ++
          [{| Player.r_event := ev; Player.r_fn := fn; Player.r_once := once |}])
       p).

(** [removeListener(ev, fn)], and with [only_once] the removal a
    one-shot registration makes of itself when it is called (as
    eventemitter3 does both: every registration of [fn] goes). *)
Definition remove_listener (ref : nat) (ev : string) (fn : Player.Listener)
    (only_once : bool) : M unit :=
  let! p := player_of ref in
  put_player ref
    (Player.set_listeners
       (filter (fun r => negb (String.eqb (Player.r_event r) ev
                               && same_fn (Player.r_fn r) fn
                               && (negb only_once || Player.r_once r)) = true)
               (Player.listeners p))
       p).

(** [readyHandler] of the [voiceServerUpdate] call [c] for [guildId]. *)
Definition readyHandler (guildId : string) (c : nat) : M unit :=
  let! player := reg_get (KStr guildId) in
  let! pg := pending_of guildId in
  match pg with
  | None =>
      match player with
      | Some ref =>
          remove_listener ref "disconnect" (Player.DisconnectHandler guildId c) false
      | None => ret tt
      end
  | Some pg =>
      let! ref := the "TypeError: Cannot read property 'removeListener' of undefined"
                      player in
      let! _ := remove_listener ref "disconnect"
                  (Player.DisconnectHandler guildId c) false in
      let! _ := settle (pg_promise pg) (Resolved ref) in
      pending_delete guildId
  end.

(** [disconnectHandler] of the [voiceServerUpdate] call [c]. *)
Definition disconnectHandler (guildId : string) (c : nat) : M unit :=
  let! player := reg_get (KStr guildId) in
  let! pg := pending_of guildId in
  match pg with
  | None =>
      match player with
      | Some ref =>
          remove_listener ref "ready" (Player.ReadyHandler guildId c) false
      | None => ret tt
      end
  | Some pg =>
      let! ref := the "TypeError: Cannot read property 'removeListener' of undefined"
                      player in
      let! _ := remove_listener ref "ready"
                  (Player.ReadyHandler guildId c) false in
      let! _ := settle (pg_promise pg) (Rejected (error "Disconnected")) in
      pending_delete guildId
  end.

Definition call_listener (ref : nat) (ev : string) (arg : Js.Val)
    (fn : Player.Listener) : M unit :=
  match fn with
  | Player.External n =>
      modify (fun w =>
        set_notices (notices w ++ [{| n_player := ref; n_listener := n;
                                      n_event := ev; n_arg := arg |}]) w)
  | Player.ReadyHandler g c => readyHandler g c
  | Player.DisconnectHandler g c => disconnectHandler g c
  | Player.RestoreEnd _ saved =>
      for_each saved (fun l => add_listener ref "end" l false)
  end.

(** [player.emit(ev, arg)]: the listeners registered at the time of the
    call run in order; a one-shot registration is removed before its
    listener runs. *)
Definition emit (ref : nat) (ev : string) (arg : Js.Val) : M unit :=
  let! p := player_of ref in
  for_each
    (filter (fun r => String.eqb (Player.r_event r) ev = true) (Player.listeners p))
    (fun r =>
       let! _ := (if Player.r_once r
                  then remove_listener ref ev (Player.r_fn r) true
                  else ret tt) in
       call_listener ref ev arg (Player.r_fn r)).

(** *** Node selection *)

(** The load [findIdealNode] computes for a node:
    [stats.cpu ? stats.cpu.systemLoad / stats.cpu.cores * 100 : 0].
    ([stats] is always an object: the constructor's, or a parsed message
    whose [op] is ["stats"].) *)
Definition load (n : Lavalink.t) : Js.double :=
  let cpu := default Js.VUndef (Js.get "cpu" (Lavalink.stats n)) in
  if Js.truthy cpu then
    Js.mul
      (Js.div (Js.to_number (default Js.VUndef (Js.get "systemLoad" cpu)))
              (Js.to_number (default Js.VUndef (Js.get "cores" cpu))))
      100
  else 0.

(** The comparator of the sort, [aload - bload], is positive. *)
Definition after (a b : Lavalink.t) : bool :=
  Js.positive (Js.sub (load a) (load b)).

(** [Array.prototype.sort] as a stable insertion sort: an element moves
    behind those the comparator puts strictly before it. *)
Fixpoint insert {A} (gt : A -> A -> bool) (x : A) (l : list A) : list A :=
  match l with
  | [] => [x]
  | y :: l' => if gt x y then y :: insert gt x l' else x :: l
  end.

Definition sort {A} (gt : A -> A -> bool) (l : list A) : list A :=
  foldr (insert gt) [] l.

(** The filter of [findIdealNode]:
    [!node.draining && node.ws && node.connected]. *)
Definition eligible (n : Lavalink.t) : bool :=
  negb (Lavalink.draining n)
  && bool_decide (is_Some (Lavalink.ws n))
  && Lavalink.connected n.

(** [node.region === region]. *)
Definition in_region (region : string) (n : Lavalink.t) : bool :=
  bool_decide (Lavalink.region n = Some region).

(** The body of [findIdealNode(region)] on the values of [this.nodes],
    each given with its address. *)
Definition ideal (region : string) (all : list (nat * Lavalink.t))
  : option (nat * Lavalink.t) :=
  let nodes := List.filter (fun x => eligible x.2) all in
  let nodes :=
    if negb (String.eqb region "") then
      let regionalNodes := List.filter (fun x => in_region region x.2) nodes in
      match regionalNodes with
      | _ :: _ => regionalNodes
      | [] => nodes
      end
    else nodes in
  head (sort (fun a b => after a.2 b.2) nodes).

(** The comparator of the sort on nodes given with their addresses. *)
Definition by_load (a b : nat * Lavalink.t) : bool := after a.2 b.2.

(** The nodes the selection considers, and the set the choice is made
    among: the considered nodes of the requested region when there is
    one, all the considered nodes otherwise. *)
Definition candidates (all : list (nat * Lavalink.t)) : list (nat * Lavalink.t) :=
  List.filter (fun x => eligible x.2) all.

Definition regional (region : string) (all : list (nat * Lavalink.t))
  : list (nat * Lavalink.t) :=
  List.filter (fun x => in_region region x.2) (candidates all).

Definition choice_set (region : string) (all : list (nat * Lavalink.t))
  : list (nat * Lavalink.t) :=
  match regional region all with
  | [] => candidates all
  | _ :: _ => regional region all
  end.

(** The computed load of [a] is at most that of [b]: [aload <= bload]
    holds, which it does of no load that is [NaN]. *)
Definition load_le (a b : Lavalink.t) : Prop :=
  Js.leb (load a) (load b) = true.

(** [[...this.nodes.values()]] with the objects behind the addresses. *)
Definition node_values (w : World) : list (nat * Lavalink.t) :=
  omap (fun ref => pair ref <$> lavalinks w !! ref) (JsMap.values (nodes w)).

(** [findIdealNode(region)]. *)
Definition findIdealNode (region : string) : M (option nat) :=
  gets (fun w => fst <$> ideal region (node_values w)).

Fixpoint region_of (all : list Lavalink.t) (endpoint : string)
    (regions : list (string * list string)) : option string :=
  match regions with
  | [] => None
  | (key, names) :: rest =>
      let nodes := List.filter (fun n => bool_decide (Lavalink.region n = Some key)) all in
      match nodes with
      | [] => region_of all endpoint rest
      | _ :: _ =>
          if negb (existsb (fun n => Lavalink.connected n && negb (Lavalink.draining n)) nodes)
          then region_of all endpoint rest
          else if existsb (fun region => String.prefix region endpoint) names
               then Some key
               else region_of all endpoint rest
      end
  end.

(** [getRegionFromData(endpoint)]. *)
Definition getRegionFromData (endpoint : string) : M string :=
  gets (fun w =>
    let fallback := default "us" (Lavalink.or_str (defaultRegion (config w))) in
    if String.eqb endpoint "" then fallback
    else
      let endpoint := Js.replace "vip-" "" endpoint in
      default fallback
        (region_of (snd <$> node_values w) endpoint (regions (config w)))).

(** *** Players seen from the manager *)

(** [switchNode(player, leave)]. *)
Definition switchNode (ref : nat) (leave : bool) : M unit :=
  let! p := player_of ref in
  let guildId := Player.guildId p in
  let channelId := Player.channelId p in
  let track := Player.track p in
  let! pos := the "TypeError: Cannot read property 'position' of undefined"
                  (Js.get "position" (Player.state p)) in
  let! threshold := gets (fun w => Lavalink.or_num (reconnectThreshold (config w)) 2000) in
  let position := Js.plus (Js.or pos (Js.VNum 0)) (Js.VNum threshold) in
  let endListeners :=
    Player.r_fn <$>
      filter (fun r => String.eqb (Player.r_event r) "end" = true) (Player.listeners p) in
  let! _ := for_each endListeners (fun l => remove_listener ref "end" l false) in
  let! c := alloc in
  let! _ := add_listener ref "end" (Player.RestoreEnd c endListeners) true in
  let! _ := reg_delete (KStr guildId) in
  let! q := player_of ref in
  let! _ := put_player ref (Player.set_playing false q) in
  let! _ :=
    (if leave then
       for_each (Player.updateVoiceState Js.VNull false false q)
         (fun e => match e with
                   | Player.GatewaySend d => gateway_send d
                   | _ => ret tt
                   end)
     else
       node_send (Player.node q) (Player.disconnect_payload guildId)) in
  nextTick (Rejoin ref guildId channelId track position).

(** What an effect of a method of player [ref] does in the world. *)
Definition perform (ref : nat) (e : Player.Effect) : M unit :=
  match e with
  | Player.NodeSend d =>
      let! p := player_of ref in node_send (Player.node p) d
  | Player.NextTick t => nextTick (PlayerTick ref t)
  | Player.Emit ev arg => emit ref ev arg
  | Player.GatewaySend d => gateway_send d
  | Player.SwitchNode => switchNode ref false
  end.

(** A method of player [ref]: its changes to the player, then its
    effects in order. *)
Definition act (ref : nat) (f : Player.t -> Player.t * list Player.Effect)
  : M unit :=
  let! p := player_of ref in
  let! _ := put_player ref (f p).1 in
  for_each (f p).2 (perform ref).

(** A method that can throw: what it did before it threw stays. *)
Definition act_result (ref : nat) (f : Player.t -> Player.Result) : M unit :=
  let! p := player_of ref in
  let! _ := put_player ref (Player.after (f p)) in
  let! _ := for_each (Player.effects (f p)) (perform ref) in
  match Player.thrown (f p) with
  | Some e => throw e
  | None => ret tt
  end.

(** [player.play(track, options)]. *)
Definition play (ref : nat) (track : option string) (options : Js.Val)
  : M unit :=
  let! p := player_of ref in
  let! n := node_of (Player.node p) in
  let! t := gets now in
  act_result ref (Player.play (Lavalink.draining n) t track options).

(** [player.stop()]. *)
Definition stop (ref : nat) : M unit := act ref Player.stop.

(** [player.disconnect(msg)]: an [async] method, what it throws stays in
    the promise it returns. *)
Definition disconnect (ref : nat) (msg : Js.Val) : M unit :=
  swallow (act ref (Player.disconnect msg)).

(** *** Failover queue *)

(** [fn()] for a queued function. *)
Definition run_job (j : Job) : M unit :=
  let! _ := modify (fun w => set_jobLog (jobLog w ++ [(now w, j)]) w) in
  match j with
  | SwitchNodeJob ref leave => switchNode ref leave
  end.

(** [processQueue(fn)]. *)
Definition processQueue (fn : Job) : M unit :=
  let! _ := run_job fn in
  let! rate := gets (fun w => failoverRate (config w)) in
  let! _ := setTimeout CheckFailover rate in
  ret tt.

(** [checkFailoverQueue()]; [splice(0, failoverLimit)]. *)
Definition checkFailoverQueue : M unit :=
  let! q := gets failoverQueue in
  match q with
  | [] => ret tt
  | _ :: _ =>
      let! limit := gets (fun w => Z.to_nat (failoverLimit (config w))) in
      let fns := take limit q in
      let! _ := modify (set_failoverQueue (drop limit q)) in
      for_each fns processQueue
  end.

(** [queueFailover(fn)]. *)
Definition queueFailover (fn : Job) : M unit :=
  let! q := gets failoverQueue in
  match q with
  | _ :: _ => modify (set_failoverQueue (q ++ [fn]))
  | [] => processQueue fn
  end.

(** [onError(node, err)]. *)
Definition onError (node : nat) (err : Js.Val) : M unit :=
  client_error err.

(** [player.node.host === node.host]. *)
Definition bound_to (w : World) (host : string) (ref : nat) : bool :=
  match players w !! ref with
  | Some p =>
      match lavalinks w !! Player.node p with
      | Some n => String.eqb (Lavalink.host n) host
      | None => false
      end
  | None => false
  end.

(** [onDisconnect(node, msg)]. *)
Definition onDisconnect (node : nat) : M unit :=
  let! n := node_of node in
  let! ps := gets (fun w =>
    List.filter (bound_to w (Lavalink.host n)) (JsMap.values (registry w))) in
  for_each ps (fun ref => queueFailover (SwitchNodeJob ref true)).

(** [onReady()].  The loop is over the live registry; a job that runs
    at once deletes the entry the loop is at, which does not disturb the
    iteration. *)
Definition onReady : M unit :=
  let! ps := gets (fun w => JsMap.values (registry w)) in
  for_each ps (fun ref => queueFailover (SwitchNodeJob ref false)).

(** *** Nodes of the pool *)

(** [createNode(options)]: the node is made from six of the options,
    [timeout] not among them. *)
Definition createNode (o : Lavalink.Options) : M unit :=
  let! ref := alloc in
  let! sock := alloc in
  let r := Lavalink.constructor
             {| Lavalink.o_host := Lavalink.o_host o;
                Lavalink.o_port := Lavalink.o_port o;
                Lavalink.o_region := Lavalink.o_region o;
                Lavalink.o_numShards := Lavalink.o_numShards o;
                Lavalink.o_userId := Lavalink.o_userId o;
                Lavalink.o_password := Lavalink.o_password o;
                Lavalink.o_timeout := None |} sock in
  let! _ := put_node ref r.1 in
  let! _ := for_each r.2 (node_effect ref) in
  modify (fun w => set_nodes (JsMap.set (Lavalink.o_host o) ref (nodes w)) w).

(** [removeNode(host)]; [None] is a missing argument. *)
Definition removeNode (host : option string) : M unit :=
  match Lavalink.or_str host with
  | None => ret tt
  | Some h =>
      let! found := gets (fun w => JsMap.get h (nodes w)) in
      match found with
      | None => ret tt
      | Some node =>
          let! n := node_of node in
          let! _ := for_each (Lavalink.destroy n) (node_effect node) in
          let! _ := modify (fun w => set_nodes (JsMap.delete h (nodes w)) w) in
          onDisconnect node
      end
  end.

(** *** Joining and leaving *)

Definition connect_payload (guildId : string) (channelId : Js.Val)
  : Js.Val :=
  Js.VObj [("op", Js.VStr "connect"); ("guildId", Js.VStr guildId);
           ("channelId", channelId)].

(** [join(guildId, channelId, options, player)] up to its [await]: the
    promise it returns is the result; [k] is what the caller chains to
    it.  The node is chosen here; the rest of the body runs as the
    promise job [JoinResume]. *)
Definition join (guildId : string) (channelId : Js.Val)
    (options : Js.Val) (player : option nat) (k : Cont) : M nat :=
  let options := if Js.truthy options then options else Js.VObj [] in
  let! found := reg_get (KStr guildId) in
  let player := match player with Some r => Some r | None => found end in
  let! pr := new_promise k in
  let! switched :=
    match player with
    | Some ref =>
        let! p := player_of ref in
        if negb (Js.strict_eq (Player.channelId p) channelId) then
          let! _ := act ref (Player.switchChannel channelId false) in
          let! _ := settle pr (Resolved ref) in
          ret true
        else ret false
    | None => ret false
    end in
  if switched : bool then ret pr
  else
    let r := default Js.VUndef (Js.get "region" options) in
    let! endpoint :=
      match (if Js.truthy r then r else Js.VStr "us") with
      | Js.VStr s => ret s
      | _ => throw "TypeError: endpoint.replace is not a function"
      end in
    let! region := getRegionFromData endpoint in
    let! node := findIdealNode region in
    let! _ := enqueue (JoinResume guildId channelId options player node pr) in
    ret pr.

(** The rest of [join] after [await this.findIdealNode(region)]. *)
Definition join_resume (guildId : string) (channelId : Js.Val)
    (options : Js.Val) (player : option nat) (node : option nat)
    (pr : nat) : M unit :=
  match node with
  | None => settle pr (Rejected (Js.VStr "No available voice nodes."))
  | Some n =>
      let! h := setTimeout (JoinTimeout guildId n pr) 10000 in
      let! _ := modify (fun w =>
        set_pendingGuilds
          (<[guildId := {| pg_channelId := channelId; pg_options := options;
                           pg_player := player; pg_node := n;
                           pg_promise := pr; pg_timeout := Some h |}]>
             (pendingGuilds w)) w) in
      node_send n (connect_payload guildId channelId)
  end.

(** The callback of the 10 s timer of a pending join. *)
Definition join_timeout (guildId : string) (node pr : nat) : M unit :=
  let! _ := node_send node (Player.disconnect_payload guildId) in
  let! _ := pending_delete guildId in
  settle pr (Rejected (error "Voice connection timeout")).

(** [leave(guildId)]. *)
Definition leave (guildId : string) : M unit :=
  let! player := reg_get (KStr guildId) in
  match player with
  | None => ret tt
  | Some ref =>
      let! _ := disconnect ref Js.VUndef in
      reg_delete (KPlayer ref)
  end.

(** The [d] of a VOICE_SERVER_UPDATE packet; [session_id] is what
    [onRaw] writes into it. *)
Record ServerUpdate := {
  guild_id : string;
  endpoint : Js.Val;
  token : Js.Val;
  sessionId : Js.Val;
  session_id : Js.Val
}.

Definition su_val (d : ServerUpdate) : Js.Val :=
  Js.VObj [("guild_id", Js.VStr (guild_id d)); ("endpoint", endpoint d);
           ("token", token d); ("sessionId", sessionId d);
           ("session_id", session_id d)].

(** [voiceServerUpdate(data)]. *)
Definition voiceServerUpdate (data : ServerUpdate) : M unit :=
  let g := guild_id data in
  let! pg0 := pending_of g in
  let! _ :=
    match pg0 with
    | Some pg =>
        match pg_timeout pg with
        | Some h =>
            let! _ := clearTimeout h in
            modify (fun w =>
              set_pendingGuilds
                (<[g := {| pg_channelId := pg_channelId pg;
                           pg_options := pg_options pg;
                           pg_player := pg_player pg; pg_node := pg_node pg;
                           pg_promise := pg_promise pg;
                           pg_timeout := None |}]> (pendingGuilds w)) w)
        | None => ret tt
        end
    | None => ret tt
    end in
  let! found := reg_get (KStr g) in
  let! player :=
    match found with
    | Some ref => ret (Some ref)
    | None =>
        let! pg1 := pending_of g in
        match pg1 with
        | None => ret None
        | Some pg =>
            let! ref :=
              match pg_player pg with
              | Some ref =>
                  let! p := player_of ref in
                  let! _ := put_player ref
                    (Player.set_event (su_val data)
                       (Player.set_node (pg_node pg)
                          (Player.set_hostname Js.VUndef
                             (Player.set_sessionId (sessionId data) p)))) in
                  let! _ := reg_set (KStr g) ref in
                  ret ref
              | None =>
                  let! ref := alloc in
                  let! t := gets now in
                  let! _ := put_player ref
                    (Player.constructor g Js.VUndef g (pg_channelId pg)
                       (pg_node pg) (pg_options pg) t) in
                  ret ref
              end in
            let! _ := reg_set (KStr g) ref in
            let! _ := act_result ref
              (Player.connect
                 (Js.VObj [("sessionId", session_id data);
                           ("guildId", Js.VStr g);
                           ("channelId", pg_channelId pg);
                           ("event",
                            Js.VObj [("endpoint", endpoint data);
                                     ("guild_id", Js.VStr g);
                                     ("token", token data)])])) in
            ret (Some ref)
        end
    end in
  match player with
  | None => ret tt
  | Some ref =>
      let! c := alloc in
      let! _ := add_listener ref "ready" (Player.ReadyHandler g c) true in
      add_listener ref "disconnect" (Player.DisconnectHandler g c) true
  end.

(** A gateway packet as [onRaw] tells them apart by [packet.t]. *)
Inductive Packet :=
| VoiceServerUpdatePacket (d : ServerUpdate)
| VoiceStateUpdatePacket (d : Js.Val)
| OtherPacket.

(** [onRaw(packet)]. *)
Definition onRaw (packet : Packet) : M unit :=
  match packet with
  | VoiceServerUpdatePacket d =>
      let! sid := gets (fun w => clientSessionID (config w)) in
      swallow (voiceServerUpdate
                 {| guild_id := guild_id d; endpoint := endpoint d;
                    token := token d; sessionId := sessionId d;
                    session_id := sid |})
  | VoiceStateUpdatePacket d =>
      let! id := the "TypeError: Cannot read property 'id' of undefined"
                     (Js.get "id" d) in
      let! me := gets (fun w => clientUserId (config w)) in
      if Js.truthy id && Js.is_str me id then
        let! player := reg_get (key_of (default Js.VUndef (Js.get "guild_id" d))) in
        match player with
        | Some ref =>
            let! p := player_of ref in
            let channel := default Js.VUndef (Js.get "channel_id" d) in
            if negb (Js.strict_eq (Player.channelId p) channel)
            then act ref (Player.switchChannel channel true)
            else ret tt
        | None => ret tt
        end
      else ret tt
  | OtherPacket => ret tt
  end.

(** *** Messages of a node *)

(** [v && v.length] for the ids of a message: a string that is not
    empty, or an object with a truthy [length]. *)
Definition has_length (v : Js.Val) : bool :=
  match v with
  | Js.VStr s => negb (String.eqb s "")
  | Js.VObj fs => Js.truthy (default Js.VUndef (Js.alookup "length" fs))
  | _ => false
  end.

(** [collection.has(v)] and [collection.get(v)] on a collection keyed by
    id strings: only a string can be a key of it. *)
Definition known (ids : list string) (v : Js.Val) : bool :=
  match v with
  | Js.VStr s => bool_decide (s ∈ ids)
  | _ => false
  end.

Definition field (k : string) (v : Js.Val) : Js.Val :=
  default Js.VUndef (Js.get k v).

(** [case 'validationReq']. *)
Definition validationReq (node : nat) (message : Js.Val) : M unit :=
  let guildId := field "guildId" message in
  let channelId := field "channelId" message in
  let! cfg := gets config in
  let guildValid :=
    if Js.truthy guildId && has_length guildId
    then known (clientGuilds cfg) guildId
    else true in
  let channelFound :=
    Js.truthy channelId && has_length channelId
    && known (clientChannels cfg) channelId in
  let channelValid :=
    if Js.truthy channelId && has_length channelId
    then channelFound else true in
  node_send node
    (Js.VObj ([("op", Js.VStr "validationRes"); ("guildId", guildId)]
              ++ (if channelFound then [("channelId", channelId)] else [])
              ++ [("valid", Js.VBool (guildValid && channelValid))])).

(** [case 'isConnectedReq']. *)
Definition isConnectedReq (node : nat) (message : Js.Val) : M unit :=
  let! cfg := gets config in
  node_send node
    (Js.VObj [("op", Js.VStr "isConnectedRes");
              ("shardId", Js.VNum (Js.parseInt (field "shardId" message)));
              ("connected", Js.VBool (Z.eqb (clientStatus cfg) 0))]).

(** The body of [case 'sendWS'], which ends without [break] or
    [return].  The JSON text in [message.message] is given as the value
    it denotes; a text that does not parse is given as [undefined], on
    which [JSON.parse] throws as well. *)
Definition sendWS (message : Js.Val) : M unit :=
  let! payload :=
    match field "message" message with
    | Js.VUndef => throw "SyntaxError: Unexpected token in JSON"
    | v => ret v
    end in
  let! _ := gateway_send payload in
  let! op := the "TypeError: Cannot read property 'op' of null"
                 (Js.get "op" payload) in
  if Js.is_num 4 op then
    let d := field "d" payload in
    let! channel := the "TypeError: Cannot read property 'channel_id' of undefined"
                        (Js.get "channel_id" d) in
    if negb (Js.truthy channel)
    then reg_delete (key_of (field "guild_id" d))
    else ret tt
  else ret tt.

(** The body of [case 'playerUpdate']. *)
Definition playerUpdate (message : Js.Val) : M unit :=
  let! player := reg_get (key_of (field "guildId" message)) in
  match player with
  | None => ret tt
  | Some ref =>
      let! p := player_of ref in
      put_player ref (Player.stateUpdate (field "state" message) p)
  end.

(** The body of [case 'event']. *)
Definition event (message : Js.Val) : M unit :=
  let! player := reg_get (key_of (field "guildId" message)) in
  match player with
  | None => ret tt
  | Some ref =>
      let type := field "type" message in
      if Js.is_str "TrackEndEvent" type then
        act_result ref (Player.onTrackEnd message)
      else if Js.is_str "TrackExceptionEvent" type then
        act ref (fun p => (p, Player.onTrackException message p))
      else if Js.is_str "TrackStuckEvent" type then
        act ref (Player.onTrackStuck message)
      else
        emit ref "warn"
             (Js.VStr (String.append "Unexpected event type: " (Js.to_string type)))
  end.

(** [onMessage(node, message)]: the [switch] on [message.op], with the
    fall from ['sendWS'] into ['playerUpdate'] the source has. *)
Definition onMessage (node : nat) (message : Js.Val) : M unit :=
  let! op := the "TypeError: Cannot read property 'op' of undefined"
                 (Js.get "op" message) in
  if negb (Js.truthy op) then ret tt
  else if Js.is_str "validationReq" op then validationReq node message
  else if Js.is_str "isConnectedReq" op then isConnectedReq node message
  else if Js.is_str "sendWS" op then
    let! _ := sendWS message in
    playerUpdate message
  else if Js.is_str "playerUpdate" op then playerUpdate message
  else if Js.is_str "event" op then event message
  else ret tt.

(** *** The event loop *)

(** What a node emits, to the listeners [createNode] registers. *)
Definition node_emit (node : nat) (e : Lavalink.Effect) : M unit :=
  match e with
  | Lavalink.Emit ev arg =>
      if String.eqb ev "error" then onError node arg
      else if String.eqb ev "disconnect" then onDisconnect node
      else if String.eqb ev "message" then onMessage node arg
      else ret tt
  | _ => node_effect node e
  end.

(** A method of the node at [ref], or a part of one, that emits
    nothing before its last assignment: the node it leaves, then what it
    does and emits, in order. *)
Definition node_act (ref : nat) (f : Lavalink.t -> Lavalink.t * list Lavalink.Effect)
  : M unit :=
  let! n := node_of ref in
  let! _ := put_node ref (f n).1 in
  for_each (f n).2 (node_emit ref).

(** A [process.nextTick] callback. *)
Definition run_tick (t : Tick) : M unit :=
  match t with
  | PlayerTick ref Player.CheckEventQueue => act ref Player.checkEventQueue
  | PlayerTick ref Player.EmitReady => emit ref "ready" Js.VUndef
  | PlayerTick ref (Player.EmitEnd m) => emit ref "end" m
  | Rejoin ref guildId channelId track position =>
      let! _ := join guildId channelId Js.VNull (Some ref)
                     (Rejoined ref guildId track position) in
      ret tt
  end.

(** The [then] callback of [switchNode]'s chain. *)
Definition rejoined (player : nat) (guildId : string) (track : option string)
    (position : Js.Val) : M unit :=
  let! _ := play player track (Js.VObj [("startTime", position)]) in
  let! _ := emit player "reconnect" Js.VUndef in
  reg_set (KStr guildId) player.

(** A promise job.  The reaction of a promise [switchNode] chained to:
    [then] on resolution, [catch] on rejection and on what [then]
    throws. *)
Definition run_micro (m : Micro) : M unit :=
  match m with
  | JoinResume guildId channelId options player node pr =>
      join_resume guildId channelId options player node pr
  | Settled pr =>
      let! p := gets (fun w => promises w !! pr) in
      match p with
      | Some {| pr_cont := Rejoined ref guildId track position;
                pr_outcome := Some (Resolved player) |} =>
          catch (rejoined player guildId track position)
                (fun e => disconnect ref (Js.VStr e))
      | Some {| pr_cont := Rejoined ref _ _ _;
                pr_outcome := Some (Rejected err) |} => disconnect ref err
      | _ => ret tt
      end
  end.

(** The callback of a timer. *)
Definition run_timer (t : TimerTask) : M unit :=
  match t with
  | JoinTimeout guildId node pr => join_timeout guildId node pr
  | CheckFailover => checkFailoverQueue
  | Reconnect node =>
      let! h := alloc in
      let! sock := alloc in
      node_act node (Lavalink.reconnect h sock)
  end.

(** What happens to the process: calls of the library's user (the
    methods of the manager and of its players, the registration of a
    listener, the assignment of a node's [draining]), gateway events,
    socket events, timers, and the runs of queued callbacks. *)
Inductive Event :=
| CallJoin (guildId : string) (channelId : Js.Val) (options : Js.Val)
           (player : option nat)
| CallLeave (guildId : string)
| CallPlay (player : nat) (track : option string) (options : Js.Val)
| CallStop (player : nat)
| CallDisconnect (player : nat) (msg : Js.Val)
| CallSwitchChannel (player : nat) (channelId : Js.Val) (reactive : bool)
| CallConnect (player : nat) (data : Js.Val)
| CallSetPause (player : nat) (pause : Js.Val)
| CallSeek (player : nat) (position : Js.Val)
| CallSetVolume (player : nat) (volume : Js.Val)
| CallOn (player : nat) (ev : string) (listener : nat) (once : bool)
| SetDraining (host : string) (draining : bool)
| CallCreateNode (o : Lavalink.Options)
| CallRemoveNode (host : option string)
| GatewayReady
| GatewayRaw (packet : Packet)
| SocketOpen (sock : nat)
| SocketClose (sock : nat)
| SocketMessage (sock : nat) (data : option Js.Val)
| TimerFires (handle : nat)
| RunTick
| RunMicro.

Definition handle (ev : Event) : M unit :=
  match ev with
  | CallJoin g c o p => let! _ := join g c o p Caller in ret tt
  | CallLeave g => leave g
  | CallPlay p t o => play p t o
  | CallStop p => stop p
  | CallDisconnect p m => disconnect p m
  | CallSwitchChannel p c r => act p (Player.switchChannel c r)
  | CallConnect p data => act_result p (Player.connect data)
  | CallSetPause p v => act p (fun q => (q, Player.setPause v q))
  | CallSeek p v => act p (fun q => (q, Player.seek v q))
  | CallSetVolume p v => act p (fun q => (q, Player.setVolume v q))
  | CallOn p ev n once => add_listener p ev (Player.External n) once
  | SetDraining h b =>
      let! found := gets (fun w => JsMap.get h (nodes w)) in
      match found with
      | Some node =>
          let! n := node_of node in
          put_node node (Lavalink.set_draining b n)
      | None => ret tt
      end
  | CallCreateNode o => createNode o
  | CallRemoveNode h => removeNode h
  | GatewayReady => onReady
  | GatewayRaw packet => onRaw packet
  | SocketOpen s =>
      let! k := gets (fun w => sockets w !! s) in
      match k with
      | Some k => node_act (s_node k) Lavalink.ready
      | None => ret tt
      end
  | SocketClose s =>
      let! k := gets (fun w => sockets w !! s) in
      match k with
      | Some k =>
          if s_closeListener k then
            let! h := alloc in
            let! _ := node_act (s_node k) Lavalink.disconnected_notice in
            node_act (s_node k) (Lavalink.disconnected_rest h)
          else ret tt
      | None => ret tt
      end
  | SocketMessage s data =>
      let! k := gets (fun w => sockets w !! s) in
      match k with
      | Some k =>
          let! n := node_of (s_node k) in
          let! r := the "TypeError: Cannot read property 'op' of null"
                        (Lavalink.onMessage data n) in
          let! _ := put_node (s_node k) r.1 in
          for_each r.2 (node_emit (s_node k))
      | None => ret tt
      end
  | TimerFires h =>
      let! found := gets (fun w =>
        head (filter (fun t => t_handle t = h) (timers w))) in
      match found with
      | Some t =>
          let! _ := clearTimeout h in
          let! _ := modify (fun w => set_now (Z.max (now w) (t_due t)) w) in
          run_timer (t_task t)
      | None => ret tt
      end
  | RunTick =>
      let! q := gets ticks in
      match q with
      | t :: q' => let! _ := modify (set_ticks q') in run_tick t
      | [] => ret tt
      end
  | RunMicro =>
      let! q := gets micro in
      match q with
      | m :: q' => let! _ := modify (set_micro q') in run_micro m
      | [] => ret tt
      end
  end.

Definition step (w : World) (ev : Event) : World := top (handle ev) w.

Definition run (w : World) (evs : list Event) : World := fold_left step evs w.

(** The queued callbacks run to exhaustion, ticks before promise jobs,
    as after every callback of the loop. *)
Fixpoint drain (fuel : nat) (w : World) : World :=
  match fuel with
  | O => w
  | S fuel' =>
      match ticks w, micro w with
      | _ :: _, _ => drain fuel' (step w RunTick)
      | [], _ :: _ => drain fuel' (step w RunMicro)
      | [], [] => w
      end
  end.

(** *** Construction *)

(** The manager's [options]. *)
Record Options := {
  o_failoverRate : option Z;
  o_failoverLimit : option Z;
  o_defaultRegion : option string;
  o_reconnectThreshold : option Z;
  o_regions : option (list (string * list string))
}.

(** What the manager reads of the Discord client. *)
Record Client := {
  c_userId : string;
  c_sessionID : Js.Val;
  c_status : Z;
  c_guilds : list string;
  c_channels : list string
}.

Definition defaultRegions : list (string * list string) :=
  [("asia", ["hongkong"; "singapore"; "sydney"]);
   ("eu", ["eu"; "amsterdam"; "frankfurt"; "russia"]);
   ("us", ["us"; "brazil"])].

(** [new PlayerManager(client, nodes, options)]; each element of
    [nodes] is the node's options merged with the manager's. *)
Definition constructor (client : Client) (nodes : list Lavalink.Options)
    (o : Options) : World :=
  top (for_each nodes createNode)
    {| now := 0; fresh := 0%nat;
       config := {| failoverRate := Lavalink.or_num (o_failoverRate o) 250;
                    failoverLimit := Lavalink.or_num (o_failoverLimit o) 1;
                    defaultRegion := o_defaultRegion o;
                    reconnectThreshold := o_reconnectThreshold o;
                    regions := default defaultRegions (o_regions o);
                    clientUserId := c_userId client;
                    clientSessionID := c_sessionID client;
                    clientStatus := c_status client;
                    clientGuilds := c_guilds client;
                    clientChannels := c_channels client |};
       lavalinks := ∅; sockets := ∅; players := ∅;
       registry := JsMap.empty; nodes := JsMap.empty; pendingGuilds := ∅;
       failoverQueue := []; timers := []; ticks := []; micro := [];
       promises := ∅; gateway := []; clientErrors := []; notices := [];
       jobLog := []; uncaught := [] |}.

(** *** Invariants *)

(** [m] keeps [P], whether it returns or throws. *)
Definition preserves {A} (P : World -> Prop) (m : M A) : Prop :=
  forall w, P w -> P (final (m w)).

(** Every key of the registry occurs once. *)
Definition one_per_key (w : World) : Prop := JsMap.wf (registry w).

(** No node has the empty string for its region: the constructor makes
    [null] of it. *)
Definition regions_set (w : World) : Prop :=
  forall ref n, lavalinks w !! ref = Some n -> Lavalink.region n <> Some "".

(** The failover queue is empty. *)
Definition idle (w : World) : Prop := failoverQueue w = [].

(** Nothing is scheduled: no timer, no tick, no promise job. *)
Definition quiescent (w : World) : Prop :=
  timers w = [] /\ ticks w = [] /\ micro w = [].

End PlayerManager.

(** ** Worlds the properties are checked on *)

Module Scenario.
Import PlayerManager.

Definition client : Client :=
  {| c_userId := "bot"; c_sessionID := Js.VStr "session"; c_status := 0;
     c_guilds := ["g1"; "g2"; "g3"]; c_channels := ["c1"; "c2"] |}.

Definition node_options (host region : string) : Lavalink.Options :=
  {| Lavalink.o_host := host; Lavalink.o_port := Some 8080;
     Lavalink.o_region := Some region; Lavalink.o_numShards := 1;
     Lavalink.o_userId := "bot"; Lavalink.o_password := None;
     Lavalink.o_timeout := None |}.

(** No option given: [failoverRate] is 250 ms and [failoverLimit] is 1. *)
Definition options : Options :=
  {| o_failoverRate := None; o_failoverLimit := None;
     o_defaultRegion := None; o_reconnectThreshold := None;
     o_regions := None |}.

(** One event of the loop, then the callbacks it left queued. *)
Definition after (w : World) (ev : Event) : World := drain 64 (step w ev).

Definition play_out (w : World) (evs : list Event) : World :=
  fold_left after evs w.

Definition server_update (guildId : string) : Event :=
  GatewayRaw (VoiceServerUpdatePacket
                {| guild_id := guildId; endpoint := Js.VStr "us-west1.discord.gg";
                   token := Js.VStr "token"; sessionId := Js.VUndef;
                   session_id := Js.VUndef |}).

Definition call_join (guildId channelId : string) : Event :=
  CallJoin guildId (Js.VStr channelId) Js.VUndef None.

(** A manager with one node, ["n1"], whose socket (1) is open. *)
Definition pool : World :=
  play_out (constructor client [node_options "n1" "us"] options)
           [SocketOpen 1%nat].

(** The same with a session for guild ["g1"] on channel ["c1"], joined
    through the handshake. *)
Definition live : World :=
  play_out pool [call_join "g1" "c1"; server_update "g1"].

(** Three sessions on the node. *)
Definition three : World :=
  play_out live [call_join "g2" "c1"; server_update "g2";
                 call_join "g3" "c1"; server_update "g3"].

(** The one-node manager after a race of two sockets: the first socket
    closes, the reconnect timer fires twice (sockets 4 and 6, the first of
    them still connecting), socket 6 closes, then socket 4 opens. *)
Definition raced : World :=
  play_out (constructor client [node_options "n1" "us"] options)
           [SocketClose 1%nat; TimerFires 2%nat; TimerFires 3%nat;
            SocketClose 6%nat; SocketOpen 4%nat].

(** The one-session manager after the application marked its node as
    draining. *)
Definition drained : World := play_out live [SetDraining "n1" true].

(** [options] of [join] with or without a region. *)
Definition join_options (region : option string) : Js.Val :=
  match region with
  | Some r => Js.VObj [("region", Js.VStr r)]
  | None => Js.VUndef
  end.

(** Two connected nodes of region ["eu"] that reported their load. *)
Definition loaded (host : string) (sock : nat) (systemLoad : Q) : Lavalink.t :=
  Lavalink.set_stats
    (Js.VObj [("op", Js.VStr "stats");
              ("cpu", Js.VObj [("cores", Js.VNum 4);
                               ("systemLoad", Js.VNum systemLoad)])])
    (Lavalink.set_connected true
       (Lavalink.constructor (node_options host "eu") sock).1).

(** A raw-relay message of the node: a voice-state payload (op 4) for
    the gateway, and the [guildId] and [state] the message itself
    carries, if any. *)
Definition relay (extra : list (string * Js.Val)) : Js.Val :=
  Js.VObj ([("op", Js.VStr "sendWS"); ("shardId", Js.VNum 0);
            ("message",
             Js.VObj [("op", Js.VNum 4);
                      ("d", Js.VObj [("guild_id", Js.VStr "g1");
                                     ("channel_id", Js.VStr "c2");
                                     ("self_mute", Js.VBool false);
                                     ("self_deaf", Js.VBool false)])])]
           ++ extra).

(** The events the loop produces by itself: queued callbacks and
    timers. *)
Definition internal (ev : Event) : bool :=
  match ev with
  | RunTick | RunMicro | TimerFires _ => true
  | _ => false
  end.

End Scenario.

(** ** Notions the properties are stated with *)

Module Laws.
Import PlayerManager.

(** A region key serves an endpoint: a node of the pool has the key as its
    region and is connected and not draining, and one of the names listed
    under the key starts the endpoint. *)
Definition usable (all : list Lavalink.t) (endpoint : string)
    (entry : string * list string) : bool :=
  existsb (fun n => bool_decide (Lavalink.region n = Some entry.1)
                    && Lavalink.connected n && negb (Lavalink.draining n)) all
  && existsb (fun name => String.prefix name endpoint) entry.2.

(** The last value written under [k] by a list of bindings. *)
Definition last_binding (k : string) (fs : list (string * Js.Val))
  : option Js.Val :=
  Js.alookup k (rev fs).

(** What a node does to the outside over a sequence of events, oldest
    first. *)
Definition effects_of (c : Lavalink.Conn) (ev : Lavalink.Event)
  : list Lavalink.Effect :=
  match ev with
  | Lavalink.Open => (Lavalink.ready (Lavalink.node c)).2
  | Lavalink.Close =>
      (Lavalink.disconnected (Lavalink.fresh c) (Lavalink.node c)).2
  | Lavalink.Fire =>
      (Lavalink.reconnect (Lavalink.fresh c) (S (Lavalink.fresh c))
         (Lavalink.node c)).2
  end.

Fixpoint trace (c : Lavalink.Conn) (evs : list Lavalink.Event)
  : list Lavalink.Effect :=
  match evs with
  | [] => []
  | ev :: evs' => effects_of c ev ++ trace (Lavalink.step c ev) evs'
  end.

(** The number of times [ev] is emitted in a list of effects. *)
Definition emissions (ev : string) (es : list Lavalink.Effect) : nat :=
  length (List.filter (fun e => match e with
                                | Lavalink.Emit ev' _ => String.eqb ev' ev
                                | _ => false
                                end) es).

(** The number of socket openings in a sequence of events. *)
Definition openings (evs : list Lavalink.Event) : nat :=
  length (List.filter (fun ev => match ev with
                                 | Lavalink.Open => true
                                 | _ => false
                                 end) evs).

End Laws.
(** * Properties *)

(** ** Lavalink.js: reconnect backoff *)

Module LavalinkFacts.
Import Lavalink.

Lemma backoff_range r : 0 <= r -> 16000 <= backoff r <= 100000.
Proof. intros Hr. unfold backoff. nia. Qed.

Lemma backoff_mono r : 0 <= r -> backoff r <= backoff (r + 1).
Proof. intros Hr. unfold backoff. nia. Qed.

Lemma seqZ_snoc m k :
  seqZ m (Z.of_nat (S k)) = seqZ m (Z.of_nat k) ++ [m + Z.of_nat k].
Proof.
  replace (Z.of_nat (S k)) with (Z.of_nat k + 1) by lia.
  rewrite seqZ_app by lia. reflexivity.
Qed.

Lemma sorted_backoff k m :
  0 <= m -> Sorted Z.le (map backoff (seqZ m (Z.of_nat k))).
Proof.
  revert m. induction k as [|k IH]; intros m Hm.
  - constructor.
  - rewrite seqZ_cons by lia. cbn [map].
    replace (Z.pred (Z.of_nat (S k))) with (Z.of_nat k) by lia.
    constructor; [apply IH; lia|].
    destruct k as [|k]; [constructor|].
    rewrite seqZ_cons by lia. cbn [map]. constructor.
    replace (Z.succ m) with (m + 1) by lia. now apply backoff_mono.
Qed.

Lemma bounded_backoff k m :
  0 <= m -> Forall (fun d => 16000 <= d <= 100000) (map backoff (seqZ m (Z.of_nat k))).
Proof.
  intros Hm. apply Forall_forall. intros d Hd.
  apply list_elem_of_fmap in Hd as (r & -> & Hr).
  apply elem_of_seqZ in Hr. apply backoff_range. lia.
Qed.

Lemma inv_boot o : inv (boot o).
Proof. exists 0%nat. split; reflexivity. Qed.

Lemma inv_step c ev : inv c -> inv (step c ev).
Proof.
  intros (k & Hr & Ha). destruct ev; cbn [step].
  - exists 0%nat. unfold ready.
    destruct (reconnectInterval (node c)); split; reflexivity.
  - exists k. unfold disconnected, disconnected_notice, disconnected_rest. cbn.
    destruct (reconnectInterval (node c)); cbn; split; assumption.
  - exists (S k). cbn. split; [lia|].
    rewrite Ha, seqZ_snoc, map_app. cbn.
    unfold retryInterval, backoff. rewrite Hr. reflexivity.
Qed.

Lemma inv_run o evs : inv (run o evs).
Proof.
  unfold run. generalize (inv_boot o). generalize (boot o).
  induction evs as [|ev evs IH]; intros c Hc; cbn; [assumption|].
  apply IH, inv_step, Hc.
Qed.

Lemma ready_fields n :
  reconnectInterval (ready n).1 = None /\
  reconnectTimeout (ready n).1 = reconnectTimeout n.
Proof.
  unfold ready. destruct (reconnectInterval n) eqn:E; cbn; [|rewrite E];
    split; reflexivity.
Qed.

Lemma disconnected_fields h n :
  reconnectTimeout (disconnected h n).1 = reconnectTimeout n /\
  reconnectInterval (disconnected h n).1
  = Some (default h (reconnectInterval n)) /\
  delays (disconnected h n).2
  = match reconnectInterval n with
    | None => [reconnectTimeout n]
    | Some _ => []
    end.
Proof.
  unfold disconnected, disconnected_notice, disconnected_rest. cbn.
  destruct (reconnectInterval n) eqn:E; cbn; [rewrite E|]; repeat split.
Qed.

Lemma inv_scheduled_boot o : inv_scheduled (or_num (o_timeout o) 5000) (boot o).
Proof. split; [reflexivity|]. cbn. split; reflexivity. Qed.

Lemma inv_scheduled_step T c ev :
  inv_scheduled T c -> inv_scheduled T (step c ev).
Proof.
  intros [Ht Hs]. destruct ev; cbn [step]; unfold inv_scheduled;
    cbn [node scheduled attempts].
  - destruct (ready_fields (node c)) as [-> ->]. repeat split. exact Ht.
  - destruct (disconnected_fields (fresh c) (node c)) as (-> & -> & ->).
    split; [exact Ht|].
    destruct (reconnectInterval (node c)).
    + rewrite app_nil_r. exact Hs.
    + destruct Hs as [-> ->]. rewrite Ht. now right.
  - split; [exact Ht|]. cbn.
    destruct (reconnectInterval (node c)).
    + destruct Hs as [->| ->]; [now left|now right].
    + destruct Hs as [-> ->]. now left.
Qed.

Lemma inv_scheduled_run o evs :
  inv_scheduled (or_num (o_timeout o) 5000) (run o evs).
Proof.
  unfold run. generalize (inv_scheduled_boot o). generalize (boot o).
  induction evs as [|ev evs IH]; intros c Hc; cbn; [assumption|].
  apply IH, inv_scheduled_step, Hc.
Qed.

(** When the timer fires only while one is recorded, the delay of the
    [close] listener comes first in every outage. *)
Lemma armed_scheduled T evs : forall c,
  inv_scheduled T c ->
  match reconnectInterval (node c) with
  | None => True
  | Some _ => scheduled c = T :: attempts c
  end ->
  fires_armed c evs = true ->
  match reconnectInterval (node (fold_left step evs c)) with
  | None => scheduled (fold_left step evs c) = []
  | Some _ => scheduled (fold_left step evs c)
              = T :: attempts (fold_left step evs c)
  end.
Proof.
  induction evs as [|ev evs IH]; intros c Hi Hc Hf.
  - cbn. destruct Hi as [_ Hs].
    destruct (reconnectInterval (node c)); [exact Hc|exact (proj1 Hs)].
  - cbn [fold_left]. cbn [fires_armed] in Hf.
    apply andb_prop in Hf as [Hev Hf].
    apply IH; [now apply inv_scheduled_step| |exact Hf].
    destruct Hi as [Ht Hs]. destruct ev; cbn [step node scheduled attempts].
    + destruct (ready_fields (node c)) as [-> _]. exact I.
    + destruct (disconnected_fields (fresh c) (node c)) as (_ & -> & ->).
      destruct (reconnectInterval (node c)).
      * rewrite app_nil_r. exact Hc.
      * destruct Hs as [-> ->]. rewrite Ht. reflexivity.
    + apply bool_decide_eq_true in Hev as [h Hh]. rewrite Hh in Hc. cbn.
      rewrite Hc. reflexivity.
Qed.

(** C8, the claim as stated, fails.  The first delay of an outage is set
    by the [close] listener and is [options.timeout] (5000 ms when none is
    given), not a value of the formula.  With a timeout of 200000 ms the
    delays a node sets, over a closing and three firings of the timer, are
    200000, 16000, 25000, 36000: they decrease, and the first is above
    100000.  With the default, the delay set at retry count 0 is 5000,
    where the formula gives 16000, and 5000 is the formula's value at no
    retry count. *)
Lemma first_delay_outside_backoff :
  (let c := run {| o_host := "localhost"; o_port := Some 8080;
                   o_region := Some "eu"; o_numShards := 1; o_userId := "1";
                   o_password := None; o_timeout := Some 200000 |}
                [Close; Fire; Fire; Fire] in
   scheduled c = [200000; 16000; 25000; 36000] /\
   fires_armed (boot {| o_host := "localhost"; o_port := Some 8080;
                        o_region := Some "eu"; o_numShards := 1;
                        o_userId := "1"; o_password := None;
                        o_timeout := Some 200000 |})
     [Close; Fire; Fire; Fire] = true /\
   ~ Sorted Z.le (scheduled c) /\
   ~ Forall (fun d => d <= 100000) (scheduled c)) /\
  (let o := {| o_host := "localhost"; o_port := Some 8080;
               o_region := Some "eu"; o_numShards := 1; o_userId := "1";
               o_password := None; o_timeout := None |} in
   retries (node (boot o)) = 0 /\
   scheduled (run o [Close]) = [5000] /\
   backoff 0 = 16000 /\
   scheduled (run o [Close; Fire; Fire]) = [5000; 16000; 25000] /\
   forall r, backoff r <> 5000).
Proof.
  split.
  - cbn zeta. split; [reflexivity|]. split; [reflexivity|]. split.
    + change (scheduled _) with [200000; 16000; 25000; 36000].
      intros H. apply Sorted_inv in H as [_ H]. apply HdRel_inv in H. lia.
    + change (scheduled _) with [200000; 16000; 25000; 36000].
      intros H. apply Forall_inv in H. lia.
  - cbn zeta. repeat split. intros r. unfold backoff.
    set (x := Z.min (r - 1) 5 + 5). intros H.
    assert (Hx : x <= -3 \/ x = -2 \/ x = -1 \/ x = 0 \/ x = 1 \/ x = 2 \/ 3 <= x)
      by lia.
    destruct Hx as [Hx|[Hx|[Hx|[Hx|[Hx|[Hx|Hx]]]]]];
      try (rewrite Hx in H; discriminate H); nia.
Qed.

(** C8, amended.  For every node and every sequence of socket openings,
    socket closings and reconnect-timer firings it goes through, the
    intervals scheduled by the [reconnect()] attempts made since the
    connection was last ready are the values of
    (min(retryCount - 1, 5) + 5)^2 * 1000 at the retry counts 0, 1, 2, ...
    of these attempts; they are non-decreasing and at most 100000 ms; and
    the interval [retryInterval()] gives for the next attempt is the
    formula at the current retry count.  The delay the [close] listener
    sets is [options.timeout], or 5000 ms, whatever the retry count, and
    it sets one only when no timer is recorded; so the delays of an
    outage are that delay followed by the intervals of the attempts. *)
Theorem retryInterval_backoff (o : Options) (evs : list Event) :
  let c := run o evs in
  let timeout := or_num (o_timeout o) 5000 in
  attempts c = map backoff (seqZ 0 (retries (node c))) /\
  Sorted Z.le (attempts c) /\
  Forall (fun d => 16000 <= d <= 100000) (attempts c) /\
  retryInterval (node c) = (Z.min (retries (node c) - 1) 5 + 5) ^ 2 * 1000 /\
  delays (reconnect (fresh c) (S (fresh c)) (node c)).2
    = [backoff (retries (node c))] /\
  attempts c ++ [backoff (retries (node c))]
    = attempts (step c Fire) /\
  reconnectTimeout (node c) = timeout /\
  delays (disconnected (fresh c) (node c)).2
    = match reconnectInterval (node c) with
      | None => [timeout]
      | Some _ => []
      end /\
  (scheduled c = attempts c \/ scheduled c = timeout :: attempts c) /\
  (fires_armed (boot o) evs = true ->
   scheduled c = match reconnectInterval (node c) with
                 | Some _ => timeout :: attempts c
                 | None => []
                 end).
Proof.
  intros c timeout. destruct (inv_run o evs) as (k & Hr & Ha). fold c in Hr, Ha.
  destruct (inv_scheduled_run o evs) as [Ht Hs]. fold c timeout in Ht, Hs.
  assert (Hnext : delays (reconnect (fresh c) (S (fresh c)) (node c)).2
                  = [backoff (retries (node c))]) by reflexivity.
  split; [rewrite Ha, Hr; reflexivity|].
  split; [rewrite Ha; apply sorted_backoff; lia|].
  split; [rewrite Ha; apply bounded_backoff; lia|].
  split; [reflexivity|].
  split; [exact Hnext|].
  split; [cbn [step attempts]; rewrite Hnext; reflexivity|].
  split; [exact Ht|].
  split.
  { destruct (disconnected_fields (fresh c) (node c)) as (_ & _ & ->).
    now rewrite Ht. }
  split.
  { destruct (reconnectInterval (node c)); [exact Hs|].
    destruct Hs as [-> ->]. now left. }
  intros Hf.
  pose proof (armed_scheduled timeout evs (boot o) (inv_scheduled_boot o) I Hf) as H.
  fold (run o evs) in H. fold c in H.
  destruct (reconnectInterval (node c)); exact H.
Qed.

End LavalinkFacts.

(** ** Player.js: the command queue and the track events *)

Module PlayerFacts.
Import Player.

Lemma commit_sendEvent s d p :
  commit s (sendEvent d p)
  = {| player := set_receivedEvents (receivedEvents p ++ [d]) p;
       ticks := S (ticks s); delivered := delivered s ++ [d] |}.
Proof. reflexivity. Qed.

Lemma commit_queueEvent s d p :
  commit s (queueEvent d p)
  = match sendQueue p with
    | [] => {| player := set_receivedEvents (receivedEvents p ++ [d]) p;
               ticks := S (ticks s); delivered := delivered s ++ [d] |}
    | _ :: _ => {| player := set_sendQueue (sendQueue p ++ [d]) p;
                   ticks := ticks s; delivered := delivered s |}
    end.
Proof. unfold queueEvent. destruct (sendQueue p); reflexivity. Qed.

(** [queueEvent] extends the history by its command, whatever else the
    caller changes outside the queue and sends nothing else. *)
Lemma history_queueEvent s d p :
  delivered s ++ sendQueue p = history s ->
  history (commit s (queueEvent d p)) = history s ++ [d].
Proof.
  rewrite commit_queueEvent. unfold history.
  destruct (sendQueue p) as [|q0 q] eqn:Hq; intros H; simpl.
  - rewrite Hq, app_nil_r. rewrite app_nil_r in H. now rewrite <- H.
  - rewrite <- H. now rewrite <- app_assoc.
Qed.

Lemma commit_app s p es e :
  commit s (p, es ++ [e]) = effect (commit s (p, es)) e.
Proof. unfold commit. cbn. now rewrite fold_left_app. Qed.

Lemma commit_cons_emit s p ev arg es :
  commit s (p, Emit ev arg :: es) = commit s (p, es).
Proof. reflexivity. Qed.

Lemma commit_player s p es : player (commit s (p, es)) = p.
Proof.
  unfold commit. cbn.
  set (s0 := {| player := p; ticks := ticks s; delivered := delivered s |}).
  change p with (player s0). generalize s0. clear.
  induction es as [|e es IH]; intros s0; [reflexivity|].
  cbn. rewrite IH. destruct e as [| [] | | |]; reflexivity.
Qed.

Lemma commit_delivered_set s p es (f : t -> t) :
  delivered (commit s (f p, es)) = delivered (commit s (p, es)).
Proof.
  unfold commit. cbn.
  set (s0 := {| player := f p; ticks := ticks s; delivered := delivered s |}).
  set (s1 := {| player := p; ticks := ticks s; delivered := delivered s |}).
  assert (H : delivered s0 = delivered s1) by reflexivity.
  revert H. generalize s0 s1. clear.
  induction es as [|e es IH]; intros s0 s1 H; [exact H|].
  cbn. apply IH. destruct e as [| [] | | |]; cbn; congruence.
Qed.

(** A step extends the history by the commands of its call, in order. *)
Lemma history_step s a :
  history (step s a) = history s ++ commands (guildId (player s)) a.
Proof.
  destruct a as [d|d|m|dr now tr o| |]; cbn [step commands].
  - now apply history_queueEvent.
  - unfold connect.
    destruct (Js.get "guildId" d) as [g|]; [|cbn; now rewrite app_nil_r].
    destruct (Js.get "sessionId" d) as [si|]; [|cbn; now rewrite app_nil_r].
    destruct (Js.get "event" d) as [e|]; [|cbn; now rewrite app_nil_r].
    pose proof (history_queueEvent s (voiceUpdate_payload g si e) (player s) eq_refl) as H.
    destruct (queueEvent (voiceUpdate_payload g si e) (player s)) as [p1 es] eqn:Hq.
    cbn [after effects]. rewrite commit_cons_emit, commit_app. exact H.
  - unfold disconnect.
    pose proof (history_queueEvent s (disconnect_payload (guildId (player s)))
                  (set_playing false (player s)) eq_refl) as H.
    change (guildId (set_playing false (player s))) with (guildId (player s)).
    destruct (queueEvent _ (set_playing false (player s))) as [p1 es] eqn:Hq.
    rewrite commit_app. exact H.
  - unfold play. destruct dr.
    + destruct (Js.set "position" (Js.VNum 0) _) as [st|]; cbn;
        now rewrite app_nil_r.
    + set (p3 := set_playOptions o (set_track tr (set_lastTrack (track (player s)) (player s)))).
      pose proof (history_queueEvent s (play_payload (guildId (player s)) tr o) p3 eq_refl) as H.
      change (guildId p3) with (guildId (player s)).
      rewrite commit_queueEvent in H.
      unfold queueEvent, sendEvent.
      change (sendQueue p3) with (sendQueue (player s)) in *.
      destruct (sendQueue (player s)) eqn:Hq; exact H.
  - unfold stop.
    pose proof (history_queueEvent s (stop_payload (guildId (player s))) (player s) eq_refl) as H.
    rewrite commit_queueEvent in H.
    unfold queueEvent, sendEvent.
    destruct (sendQueue (player s)) eqn:Hq; exact H.
  - rewrite app_nil_r. destruct (ticks s) as [|k]; [reflexivity|].
    unfold checkEventQueue, history.
    destruct (sendQueue (player s)) as [|q0 q] eqn:Hq; cbn.
    + now rewrite Hq.
    + now rewrite <- app_assoc.
Qed.

Lemma guildId_step s a : guildId (player (step s a)) = guildId (player s).
Proof.
  destruct a as [d|d|m|dr now tr o| |]; cbn [step].
  - rewrite commit_queueEvent. now destruct (sendQueue (player s)).
  - unfold connect.
    destruct (Js.get "guildId" d) as [g|]; [|reflexivity].
    destruct (Js.get "sessionId" d) as [si|]; [|reflexivity].
    destruct (Js.get "event" d) as [e|]; [|reflexivity].
    unfold queueEvent, sendEvent. now destruct (sendQueue (player s)).
  - unfold disconnect, queueEvent, sendEvent. cbn.
    now destruct (sendQueue (player s)).
  - unfold play. destruct dr.
    + now destruct (Js.set "position" (Js.VNum 0) _).
    + unfold queueEvent, sendEvent. cbn. now destruct (sendQueue (player s)).
  - unfold stop, queueEvent, sendEvent. now destruct (sendQueue (player s)).
  - destruct (ticks s); [reflexivity|].
    unfold checkEventQueue. now destruct (sendQueue (player s)).
Qed.

Lemma history_run acts : forall s,
  history (run s acts) = history s ++ submitted (guildId (player s)) acts.
Proof.
  induction acts as [|a acts IH]; intros s; cbn.
  - now rewrite app_nil_r.
  - unfold run in IH. rewrite IH, history_step, guildId_step.
    now rewrite <- app_assoc.
Qed.

Lemma flushed_step s a : flushed s -> flushed (step s a).
Proof.
  intros [Hq Hr]. unfold flushed.
  destruct a as [d|d|m|dr now tr o| |]; cbn [step].
  - rewrite commit_queueEvent, Hq. cbn. now rewrite Hr.
  - unfold connect.
    destruct (Js.get "guildId" d) as [g|]; [|easy].
    destruct (Js.get "sessionId" d) as [si|]; [|easy].
    destruct (Js.get "event" d) as [e|]; [|easy].
    unfold queueEvent. rewrite Hq. cbn. now rewrite Hr.
  - unfold disconnect, queueEvent. cbn. rewrite Hq. cbn. now rewrite Hr.
  - unfold play. destruct dr.
    + now destruct (Js.set "position" (Js.VNum 0) _).
    + unfold queueEvent. cbn. rewrite Hq. cbn. now rewrite Hr.
  - unfold stop, queueEvent. rewrite Hq. cbn. now rewrite Hr.
  - destruct (ticks s); [easy|].
    unfold checkEventQueue. rewrite Hq. easy.
Qed.

Lemma flushed_run acts : forall s, flushed s -> flushed (run s acts).
Proof.
  induction acts as [|a acts IH]; intros s H; [exact H|].
  apply IH, flushed_step, H.
Qed.

(** C1.  Commands reach the node in the order they were submitted.  For
    every session, in any state, and every sequence of calls ([queueEvent]
    itself, [connect], [disconnect], [play], [stop]) interleaved with runs
    of the deferred [checkEventQueue]: the commands handed to [node.send],
    followed by those still queued, are the earlier ones followed by the
    submitted ones, in submission order.  On a player as constructed, every
    submitted command has been handed to the node, the queue is empty and
    [receivedEvents] records the same sequence.  A command submitted on a
    non-empty queue is appended to it; on an empty queue it is sent at
    once and a drain is scheduled; a drain sends the head of the queue and
    schedules the next drain.  [stop()] followed by [play(trackB)] on a
    node that is not draining hands over [stop], then [play].  A node
    that holds a socket writes what it is handed, in the same order. *)
Theorem queueEvent_submission_order :
  (forall (s : Session) (acts : list Act),
      delivered (run s acts) ++ sendQueue (player (run s acts))
      = (delivered s ++ sendQueue (player s))
          ++ submitted (guildId (player s)) acts) /\
  (forall id hostname g c n o now (acts : list Act),
      let s' := run (start (constructor id hostname g c n o now)) acts in
      delivered s' = submitted g acts /\
      receivedEvents (player s') = submitted g acts /\
      sendQueue (player s') = []) /\
  (forall (p : t) q0 q d,
      queueEvent d (set_sendQueue (q0 :: q) p)
      = (set_sendQueue ((q0 :: q) ++ [d]) p, [])) /\
  (forall (p : t) d,
      queueEvent d (set_sendQueue [] p)
      = (set_receivedEvents (receivedEvents p ++ [d]) (set_sendQueue [] p),
         [NodeSend d; NextTick CheckEventQueue])) /\
  (forall (p : t) q0 q,
      checkEventQueue (set_sendQueue (q0 :: q) p)
      = (set_receivedEvents (receivedEvents p ++ [q0]) (set_sendQueue q p),
         [NodeSend q0; NextTick CheckEventQueue])) /\
  (forall (s : Session) now trackB options,
      let s' := run s [Stop; Play false now trackB options] in
      delivered s' ++ sendQueue (player s')
      = (delivered s ++ sendQueue (player s))
          ++ [stop_payload (guildId (player s));
              play_payload (guildId (player s)) trackB options]) /\
  (forall id hostname g c n o now now' trackB options,
      delivered (run (start (constructor id hostname g c n o now))
                     [Stop; Play false now' trackB options])
      = [stop_payload g; play_payload g trackB options]) /\
  (forall (n : Lavalink.t) sock (ds : list Js.Val),
      flat_map (fun d => Lavalink.send d (Lavalink.set_ws (Some sock) n)) ds
      = map (Lavalink.WsSend sock) ds).
Proof.
  assert (Hfresh : forall id hostname g c n o now (acts : list Act),
      let s' := run (start (constructor id hostname g c n o now)) acts in
      delivered s' = submitted g acts /\
      receivedEvents (player s') = submitted g acts /\
      sendQueue (player s') = []).
  { intros id hostname g c n o now acts s'.
    pose proof (history_run acts (start (constructor id hostname g c n o now))) as H.
    destruct (flushed_run acts (start (constructor id hostname g c n o now)))
      as [Hq Hr]; [split; reflexivity|].
    fold s' in H, Hq, Hr. unfold history in H. rewrite Hq, app_nil_r in H.
    cbn in H. rewrite Hr. auto. }
  split; [intros s acts; apply (history_run acts s)|].
  split; [exact Hfresh|].
  split; [reflexivity|].
  split; [reflexivity|].
  split; [reflexivity|].
  split.
  { intros s now trackB options s'.
    exact (history_run [Stop; Play false now trackB options] s). }
  split.
  { intros i h g c n o now now' trackB opts.
    now destruct (Hfresh i h g c n o now [Stop; Play false now' trackB opts])
      as [-> _]. }
  intros n sock ds. induction ds as [|d ds IH]; [reflexivity|].
  cbn. now rewrite <- IH.
Qed.

(** C4, the claim as stated, fails: a track-end message whose reason is
    "REPLACED" leaves a playing player playing, with its track in
    place. *)
Lemma onTrackEnd_replaced_keeps_state :
  let p := set_track (Some "trackB")
             (set_playing true
                (constructor "g1" Js.VUndef "g1" (Js.VStr "c1") 0%nat Js.VUndef 0)) in
  let message := Js.VObj [("op", Js.VStr "event"); ("guildId", Js.VStr "g1");
                          ("type", Js.VStr "TrackEndEvent");
                          ("reason", Js.VStr "REPLACED")] in
  onTrackEnd message p
  = {| after := p; effects := [Emit "end" message]; thrown := None |} /\
  playing (after (onTrackEnd message p)) = true /\
  track (after (onTrackEnd message p)) = Some "trackB".
Proof. repeat split. Qed.

(** C4, amended.  When a track-end message is handled, the [end] event is
    emitted with the message, reason included, as its payload.  If the
    reason is "REPLACED" the player is left exactly as it was ([playing]
    and [track] untouched); for any other reason [playing] becomes false,
    the track is cleared and kept as [lastTrack]. *)
Theorem onTrackEnd_state (p : t) (message reason : Js.Val) :
  Js.get "reason" message = Some reason ->
  exists p',
    onTrackEnd message p
    = {| after := p'; effects := [Emit "end" message]; thrown := None |} /\
    (if Js.is_str "REPLACED" reason then p' = p
     else playing p' = false /\ track p' = None /\ lastTrack p' = track p /\
          p' = set_track None (set_lastTrack (track p) (set_playing false p))).
Proof.
  intros H. unfold onTrackEnd. rewrite H.
  destruct (Js.is_str "REPLACED" reason); cbn; eexists; split; try reflexivity.
  repeat split.
Qed.

Lemma onTrackEnd_state_witness :
  exists p',
    onTrackEnd (Js.VObj [("reason", Js.VStr "FINISHED")])
               (set_track (Some "trackA")
                  (set_playing true
                     (constructor "g1" Js.VUndef "g1" (Js.VStr "c1") 0%nat Js.VUndef 0)))
    = {| after := p';
         effects := [Emit "end" (Js.VObj [("reason", Js.VStr "FINISHED")])];
         thrown := None |} /\
    playing p' = false /\ track p' = None /\ lastTrack p' = Some "trackA".
Proof.
  destruct (onTrackEnd_state
              (set_track (Some "trackA")
                 (set_playing true
                    (constructor "g1" Js.VUndef "g1" (Js.VStr "c1") 0%nat Js.VUndef 0)))
              (Js.VObj [("reason", Js.VStr "FINISHED")])
              (Js.VStr "FINISHED") eq_refl) as (p' & H1 & H2 & H3 & H4 & _).
  exists p'. auto.
Defined.

End PlayerFacts.

(** ** Insertion-ordered maps *)

Module JsMapFacts.
Section Facts.
Context {K V : Type} `{EqDecision K}.
Implicit Types (m : JsMap.t K V) (k : K) (v : V).

Lemma keys_set_incl k v m j :
  j ∈ JsMap.keys (JsMap.set k v m) -> j = k \/ j ∈ JsMap.keys m.
Proof.
  unfold JsMap.keys. induction m as [|[k' v'] m IH]; cbn.
  - intros H%list_elem_of_singleton. now left.
  - destruct (decide (k = k')) as [->|Hne]; cbn.
    + intros H. now right.
    + intros [->|H]%elem_of_cons; [right; left|].
      destruct (IH H) as [->|H']; [now left|right; now right].
Qed.

Lemma wf_set k v m : JsMap.wf m -> JsMap.wf (JsMap.set k v m).
Proof.
  unfold JsMap.wf, JsMap.keys.
  induction m as [|[k' v'] m IH]; cbn; intros Hm.
  - apply NoDup_singleton.
  - apply NoDup_cons in Hm as [Hk Hm].
    destruct (decide (k = k')) as [->|Hne]; cbn.
    + now apply NoDup_cons.
    + apply NoDup_cons. split; [|now apply IH].
      intros [->|H']%keys_set_incl; [congruence|]. now apply Hk.
Qed.

Lemma keys_delete_incl k m j :
  j ∈ JsMap.keys (JsMap.delete k m) -> j ∈ JsMap.keys m.
Proof.
  unfold JsMap.keys. induction m as [|[k' v'] m IH]; cbn; [easy|].
  destruct (decide (k = k')) as [->|Hne]; cbn.
  - intros H. right. now apply IH.
  - intros [->|H]%elem_of_cons; [left|right; now apply IH].
Qed.

Lemma wf_delete k m : JsMap.wf m -> JsMap.wf (JsMap.delete k m).
Proof.
  unfold JsMap.wf, JsMap.keys.
  induction m as [|[k' v'] m IH]; cbn; intros Hm; [constructor|].
  apply NoDup_cons in Hm as [Hk Hm].
  destruct (decide (k = k')) as [->|Hne]; cbn; [now apply IH|].
  apply NoDup_cons. split; [|now apply IH].
  intros H'%keys_delete_incl. now apply Hk.
Qed.

Lemma wf_empty : JsMap.wf (JsMap.empty : JsMap.t K V).
Proof. constructor. Qed.

Lemma count_not_key k m : k ∉ JsMap.keys m -> JsMap.count k m = 0%nat.
Proof.
  unfold JsMap.count, JsMap.keys.
  induction m as [|[k' v'] m IH]; [easy|]. intros Hk.
  rewrite filter_cons. rewrite fmap_cons in Hk.
  destruct (decide ((k', v').1 = k)) as [Heq|Hne]; cbn in *.
  - exfalso. apply Hk. subst. left.
  - apply IH. intros H'. apply Hk. now right.
Qed.

(** In a well-formed map a key holds at most one entry. *)
Lemma wf_count k m : JsMap.wf m -> (JsMap.count k m <= 1)%nat.
Proof.
  unfold JsMap.wf, JsMap.keys.
  induction m as [|[k' v'] m IH]; intros Hm; [cbn; lia|].
  rewrite fmap_cons in Hm. apply NoDup_cons in Hm as [Hk Hm].
  unfold JsMap.count. rewrite filter_cons.
  destruct (decide ((k', v').1 = k)) as [Heq|Hne]; cbn in *.
  - subst. cbn [length]. fold (JsMap.count k m).
    rewrite count_not_key; [lia|exact Hk].
  - now apply IH.
Qed.

Lemma get_delete_ne k j m :
  j <> k -> JsMap.get j (JsMap.delete k m) = JsMap.get j m.
Proof.
  intros Hne. induction m as [|[k' v'] m IH]; cbn; [easy|].
  destruct (decide (k = k')) as [->|Hk]; cbn.
  - destruct (decide (j = k')); [congruence|exact IH].
  - destruct (decide (j = k')); [reflexivity|exact IH].
Qed.

Lemma get_delete_eq k m : JsMap.get k (JsMap.delete k m) = None.
Proof.
  induction m as [|[k' v'] m IH]; cbn; [easy|].
  destruct (decide (k = k')) as [->|Hk]; cbn; [exact IH|].
  destruct (decide (k = k')); [congruence|exact IH].
Qed.

Lemma delete_absent k m : k ∉ JsMap.keys m -> JsMap.delete k m = m.
Proof.
  unfold JsMap.keys. induction m as [|[k' v'] m IH]; cbn; [easy|].
  intros Hk. destruct (decide (k = k')) as [->|Hne].
  - exfalso. apply Hk. left.
  - f_equal. apply IH. intros H'. apply Hk. now right.
Qed.

End Facts.
End JsMapFacts.

(** ** PlayerManager.js *)

Module ManagerFacts.
Import PlayerManager.

(** *** Invariants of computations *)

Section Rules.
Context (P : World -> Prop).

Lemma preserves_ret {A} (a : A) : preserves P (ret a).
Proof. intros w H. exact H. Qed.

Lemma preserves_throw {A} e : preserves P (@throw A e).
Proof. intros w H. exact H. Qed.

Lemma preserves_gets {A} (f : World -> A) : preserves P (gets f).
Proof. intros w H. exact H. Qed.

Lemma preserves_the {A} e (o : option A) : preserves P (the e o).
Proof. intros w H. destruct o; exact H. Qed.

Lemma preserves_modify f :
  (forall w, P w -> P (f w)) -> preserves P (modify f).
Proof. intros Hf w H. apply Hf, H. Qed.

Lemma preserves_bind {A B} (m : M A) (k : A -> M B) :
  preserves P m -> (forall a, preserves P (k a)) -> preserves P (bind m k).
Proof.
  intros Hm Hk w H. unfold bind. specialize (Hm w H).
  destruct (m w) as [a w'|e w']; cbn in *; [now apply Hk|exact Hm].
Qed.

Lemma preserves_for_each {A} (l : list A) (f : A -> M unit) :
  (forall a, preserves P (f a)) -> preserves P (for_each l f).
Proof.
  intros Hf. induction l as [|a l IH]; cbn [for_each].
  - apply preserves_ret.
  - apply preserves_bind; [apply Hf|intros _; exact IH].
Qed.

Lemma preserves_swallow m : preserves P m -> preserves P (swallow m).
Proof. intros Hm w H. apply Hm, H. Qed.

Lemma preserves_catch {A} (m : M A) h :
  preserves P m -> (forall e, preserves P (h e)) -> preserves P (catch m h).
Proof.
  intros Hm Hh w H. unfold catch. specialize (Hm w H).
  destruct (m w) as [a w'|e w']; cbn in *; [exact Hm|now apply Hh].
Qed.

Lemma preserves_top m w : preserves P m ->
  (forall e w, P w -> P (set_uncaught e w)) -> P w -> P (top m w).
Proof.
  intros Hm Hu H. unfold top. specialize (Hm w H).
  destruct (m w) as [a w'|e w']; cbn in *; [exact Hm|now apply Hu].
Qed.
End Rules.

(** Every computation of the model is built from the combinators above;
    [open_defs] exposes them. *)
Ltac open_defs :=
  unfold handle, run_timer, run_micro, rejoined, run_tick, node_act,
    node_emit, onMessage, event, playerUpdate, sendWS, isConnectedReq,
    validationReq, onRaw, voiceServerUpdate, leave, join_timeout,
    join_resume, join, removeNode, createNode, onReady, onDisconnect,
    onError, queueFailover, checkFailoverQueue, processQueue, run_job,
    disconnect, stop, play, act_result, act, perform, switchNode,
    getRegionFromData, findIdealNode, emit, call_listener,
    disconnectHandler, readyHandler, remove_listener, add_listener,
    pending_delete, pending_of, reg_delete, reg_set, reg_get, new_promise,
    settle, node_send, node_effect, on_socket, client_error, gateway_send,
    enqueue, nextTick, clearTimeout, setTimeout, put_node, node_of,
    put_player, player_of, alloc.

(** Walks a computation down to its [modify] steps, which [side]
    settles. *)
Ltac walk1 side :=
  lazymatch goal with
  | |- preserves _ (ret _) => apply preserves_ret
  | |- preserves _ (throw _) => apply preserves_throw
  | |- preserves _ (gets _) => apply preserves_gets
  | |- preserves _ (the _ _) => apply preserves_the
  | |- preserves _ (modify _) => apply preserves_modify; intros ? ?; side
  | |- preserves _ (bind _ _) => apply preserves_bind; [|intros ?]
  | |- preserves _ (for_each _ _) => apply preserves_for_each; intros ?
  | |- preserves _ (swallow _) => apply preserves_swallow
  | |- preserves _ (catch _ _) => apply preserves_catch; [|intros ?]
  | |- preserves _ (match ?x with _ => _ end) => destruct x
  | |- preserves _ (let _ := _ in _) => cbv zeta
  end.

Ltac walk side := repeat walk1 side.

Lemma preserves_for_each_in (P : World -> Prop) {A} (l : list A) (f : A -> M unit) :
  (forall a, a ∈ l -> preserves P (f a)) -> preserves P (for_each l f).
Proof.
  induction l as [|a l IH]; intros Hf; cbn [for_each].
  - apply preserves_ret.
  - apply preserves_bind; [apply Hf; left|intros _].
    apply IH. intros b Hb. apply Hf. now right.
Qed.

Lemma preserves_bind_gets (P : World -> Prop) {A B} (f : World -> A)
    (k : A -> M B) :
  (forall w, P w -> P (final (k (f w) w))) -> preserves P (bind (gets f) k).
Proof. intros H w Hw. apply H, Hw. Qed.

Lemma run_preserves (P : World -> Prop) :
  (forall ev, preserves P (handle ev)) ->
  (forall e w, P w -> P (set_uncaught e w)) ->
  forall evs w, P w -> P (run w evs).
Proof.
  intros Hh Hu evs. induction evs as [|ev evs IH]; intros w H; [exact H|].
  cbn. apply IH. unfold step. now apply preserves_top.
Qed.

Lemma drain_preserves (P : World -> Prop) :
  (forall ev, preserves P (handle ev)) ->
  (forall e w, P w -> P (set_uncaught e w)) ->
  forall fuel w, P w -> P (drain fuel w).
Proof.
  intros Hh Hu fuel. induction fuel as [|fuel IH]; intros w H; [exact H|].
  cbn. destruct (ticks w); [destruct (micro w); [exact H|]|];
    apply IH; unfold step; now apply preserves_top.
Qed.

Lemma constructor_preserves (P : World -> Prop) client ns o w0 :
  (forall ev, preserves P (handle ev)) ->
  (forall e w, P w -> P (set_uncaught e w)) ->
  (forall cfg, P {| now := 0; fresh := 0%nat; config := cfg;
       lavalinks := ∅; sockets := ∅; players := ∅;
       registry := JsMap.empty; nodes := JsMap.empty; pendingGuilds := ∅;
       failoverQueue := []; timers := []; ticks := []; micro := [];
       promises := ∅; gateway := []; clientErrors := []; notices := [];
       jobLog := []; uncaught := [] |}) ->
  w0 = constructor client ns o -> P w0.
Proof.
  intros Hh Hu H0 ->. unfold constructor. apply preserves_top; [|exact Hu|apply H0].
  apply preserves_for_each. intros a. exact (Hh (CallCreateNode a)).
Qed.

(** *** One session per guild *)

Ltac registry_side :=
  first [ assumption
        | apply JsMapFacts.wf_set; assumption
        | apply JsMapFacts.wf_delete; assumption ].

Lemma handle_one_per_key ev : preserves one_per_key (handle ev).
Proof.
  unfold one_per_key. destruct ev; open_defs; walk ltac:(registry_side).
Qed.



End ManagerFacts.

Module ManagerClaims.
Import PlayerManager ManagerFacts.

(** *** join on a session in another channel *)

Lemma join_switch w g c o ref p :
  JsMap.get (KStr g) (registry w) = Some ref ->
  players w !! ref = Some p ->
  Js.strict_eq (Player.channelId p) c = false ->
  join g c o None Caller w
  = Ok (fresh w)
       (set_promises
          (<[fresh w := {| pr_cont := Caller;
                           pr_outcome := Some (Resolved ref) |}]>
             (promises w))
          (set_players (<[ref := Player.set_channelId c p]> (players w))
             (set_fresh (S (fresh w)) w))).
Proof.
  intros Hreg Hp Hc.
  unfold join, reg_get, new_promise, alloc, act, player_of, put_player, settle.
  unfold bind, gets, modify, ret. cbn.
  rewrite Hreg. cbn. rewrite Hp. cbn.
  rewrite Hc. cbn. rewrite Hp. cbn.
  unfold Player.switchChannel. rewrite Hc. cbn.
  rewrite lookup_insert_eq. cbn. rewrite insert_insert_eq. reflexivity.
Qed.

(** C7.  The registry never holds two sessions for a guild: in every
    state the manager reaches from its construction, through any calls,
    gateway and socket events, timers and queued callbacks, every key of
    the registry occurs once.  And [join(guildId, channelId)] on a guild
    that has a session in another channel changes that session's
    [channelId] in place and resolves the returned promise with it at
    once: the world after the call differs from the one before only in
    that player's [channelId], the new promise and the counter of fresh
    names, so the registry, the pending joins, the timers, the queued
    callbacks, the sockets and the gateway are untouched. *)
Theorem one_session_per_guild :
  (forall client ns o (evs : list Event) (k : Key),
      let w := run (constructor client ns o) evs in
      JsMap.wf (registry w) /\ (JsMap.count k (registry w) <= 1)%nat) /\
  (forall (w : World) g c o ref p,
      JsMap.get (KStr g) (registry w) = Some ref ->
      players w !! ref = Some p ->
      Js.strict_eq (Player.channelId p) c = false ->
      exists w',
        join g c o None Caller w = Ok (fresh w) w' /\
        players w' = <[ref := Player.set_channelId c p]> (players w) /\
        promises w' !! fresh w
          = Some {| pr_cont := Caller; pr_outcome := Some (Resolved ref) |} /\
        registry w' = registry w /\
        pendingGuilds w' = pendingGuilds w /\
        timers w' = timers w /\ ticks w' = ticks w /\ micro w' = micro w /\
        sockets w' = sockets w /\ lavalinks w' = lavalinks w /\
        nodes w' = nodes w /\ gateway w' = gateway w).
Proof.
  split.
  - intros client ns o evs k w.
    assert (H : one_per_key w).
    { apply run_preserves; [exact handle_one_per_key|easy|].
      apply (constructor_preserves one_per_key client ns o);
        [exact handle_one_per_key|easy| |reflexivity].
      intros. apply JsMapFacts.wf_empty. }
    split; [exact H|now apply JsMapFacts.wf_count].
  - intros w g c o ref p Hreg Hp Hc. eexists. split.
    + apply (join_switch w g c o ref p Hreg Hp Hc).
    + cbn. rewrite lookup_insert_eq. repeat split.
Qed.

Lemma one_session_per_guild_witness :
  exists w',
    join "g1" (Js.VStr "c2") Js.VUndef None Caller Scenario.live
      = Ok (fresh Scenario.live) w' /\
    (forall p, players w' !! 4%nat = Some p -> Player.channelId p = Js.VStr "c2") /\
    registry w' = registry Scenario.live /\
    pendingGuilds w' = pendingGuilds Scenario.live /\
    sockets w' = sockets Scenario.live.
Proof.
  destruct one_session_per_guild as [_ H].
  assert (Hp : is_Some (players Scenario.live !! 4%nat)) by (vm_compute; eauto).
  destruct Hp as [p Hp].
  assert (Hc : Player.channelId p = Js.VStr "c1").
  { revert Hp. vm_compute. now intros [= <-]. }
  destruct (H Scenario.live "g1" (Js.VStr "c2") Js.VUndef 4%nat p)
    as (w' & Hj & Hpl & _ & Hr & Hpg & _ & _ & _ & Hs & _).
  - vm_compute. reflexivity.
  - exact Hp.
  - rewrite Hc. reflexivity.
  - exists w'. repeat split; try assumption.
    intros q. rewrite Hpl, lookup_insert_eq. now intros [= <-].
Defined.

(** *** removeNode *)

(** C10.  [removeNode(host)] with a host that is not a key of the node
    registry, or with no host (or an empty one), returns without any
    change of state: the world after the call is the world before it, so
    the node registry, the session registry and the failover queue are as
    they were, no node is destroyed and no failover job is queued. *)
Theorem removeNode_unknown_host (w : World) (host : option string) :
  (forall h, host = Some h -> JsMap.get h (nodes w) = None) ->
  removeNode host w = Ok tt w /\ step w (CallRemoveNode host) = w.
Proof.
  intros H.
  assert (Hr : removeNode host w = Ok tt w).
  { unfold removeNode. destruct host as [h|]; cbn; [|reflexivity].
    destruct (String.eqb h ""); [reflexivity|].
    unfold bind, gets. rewrite (H h eq_refl). reflexivity. }
  split; [exact Hr|]. unfold step, top. cbn [handle]. now rewrite Hr.
Qed.

Lemma removeNode_unknown_host_witness :
  removeNode (Some "n2") Scenario.live = Ok tt Scenario.live /\
  step Scenario.live (CallRemoveNode (Some "n2")) = Scenario.live.
Proof.
  apply removeNode_unknown_host. intros h [= <-]. vm_compute. reflexivity.
Defined.

(** By contrast the host of a node of the pool is removed, its socket
    closed and the session bound to it sent to failover. *)
Example removeNode_known_host :
  let w := step Scenario.live (CallRemoveNode (Some "n1")) in
  nodes w = [] /\
  s_closed <$> sockets w !! 1%nat = Some true /\
  jobLog w = [(0, SwitchNodeJob 4 true)].
Proof. vm_compute. repeat split. Qed.

(** *** leave *)

Lemma perform_registry r ref e :
  e <> Player.SwitchNode ->
  preserves (fun w => registry w = r) (perform ref e).
Proof.
  intros He. destruct e; try congruence; open_defs; walk ltac:(assumption).
Qed.

Lemma disconnect_effects msg p e :
  e ∈ (Player.disconnect msg p).2 -> e <> Player.SwitchNode.
Proof.
  unfold Player.disconnect, Player.queueEvent, Player.sendEvent.
  destruct (Player.sendQueue (Player.set_playing false p)); cbn;
    intros He ->;
    repeat (apply elem_of_cons in He as [He|He]; [discriminate He|]);
    now apply elem_of_nil in He.
Qed.

Lemma disconnect_registry r ref msg :
  preserves (fun w => registry w = r) (disconnect ref msg).
Proof.
  unfold disconnect, act. apply preserves_swallow.
  apply preserves_bind; [open_defs; walk ltac:(assumption)|intros p].
  apply preserves_bind; [open_defs; walk ltac:(assumption)|intros _].
  apply preserves_for_each_in. intros e He.
  apply perform_registry. eapply disconnect_effects, He.
Qed.

(** C5, what the code does.  After [leave(guildId)] a lookup of the
    guild finds what it found before, in every world: a session that
    existed is still registered, since [leave] deletes under the player
    object and not under the guild id.  On the one-session world the
    session is disconnected (not playing, [disconnect] written to the
    node) and still in the registry. *)
Theorem leave_keeps_session :
  (forall (w : World) (g : string),
      JsMap.get (KStr g) (registry (final (leave g w)))
      = JsMap.get (KStr g) (registry w)) /\
  (let w := Scenario.after Scenario.live (CallLeave "g1") in
   JsMap.get (KStr "g1") (registry w) = Some 4%nat /\
   Player.playing <$> players w !! 4%nat = Some false /\
   last (s_frames (default {| s_node := 0; s_frames := [];
                              s_closeListener := false; s_closed := false |}
                           (sockets w !! 1%nat)))
   = Some (Player.disconnect_payload "g1")).
Proof.
  split.
  - intros w g. unfold leave, bind, reg_get, gets.
    destruct (JsMap.get (KStr g) (registry w)) as [ref|] eqn:Hg; [|exact Hg].
    pose proof (disconnect_registry (registry w) ref Js.VUndef w eq_refl) as Hd.
    unfold disconnect, swallow in *. cbn in *. rewrite Hd.
    rewrite JsMapFacts.get_delete_ne by discriminate. exact Hg.
  - vm_compute. repeat split.
Qed.

(** *** Failover queue *)

Lemma processQueue_idle j : preserves idle (processQueue j).
Proof. unfold idle. open_defs. walk ltac:(assumption). Qed.

Lemma queueFailover_idle j : preserves idle (queueFailover j).
Proof.
  unfold queueFailover. apply preserves_bind_gets. intros w H.
  rewrite H. now apply processQueue_idle.
Qed.

Lemma checkFailoverQueue_idle : preserves idle checkFailoverQueue.
Proof.
  unfold checkFailoverQueue. apply preserves_bind_gets. intros w H.
  rewrite H. exact H.
Qed.

Ltac open_above_failover :=
  unfold handle, run_timer, run_micro, rejoined, run_tick, node_act,
    node_emit, onMessage, event, playerUpdate, sendWS, isConnectedReq,
    validationReq, onRaw, voiceServerUpdate, leave, join_timeout,
    join_resume, join, removeNode, createNode, onReady, onDisconnect,
    onError.

Ltac open_below_failover :=
  unfold disconnect, stop, play, act_result, act, perform, switchNode,
    getRegionFromData, findIdealNode, emit, call_listener,
    disconnectHandler, readyHandler, remove_listener, add_listener,
    pending_delete, pending_of, reg_delete, reg_set, reg_get, new_promise,
    settle, node_send, node_effect, on_socket, client_error, gateway_send,
    enqueue, nextTick, clearTimeout, setTimeout, put_node, node_of,
    put_player, player_of, alloc.

Ltac walk_idle :=
  repeat first
    [ lazymatch goal with
      | |- preserves _ (queueFailover _) => apply queueFailover_idle
      | |- preserves _ checkFailoverQueue => apply checkFailoverQueue_idle
      end
    | walk1 ltac:(assumption) ].

Lemma handle_idle ev : preserves idle (handle ev).
Proof.
  destruct ev; open_above_failover; open_below_failover;
    unfold idle; walk_idle.
Qed.

Lemma switchNode_jobLog l ref leave :
  preserves (fun w => jobLog w = l) (switchNode ref leave).
Proof. open_defs. walk ltac:(assumption). Qed.

Lemma processQueue_jobLog j w :
  jobLog (final (processQueue j w)) = jobLog w ++ [(now w, j)].
Proof.
  set (l := jobLog w ++ [(now w, j)]).
  set (w1 := set_jobLog l w).
  assert (H : preserves (fun w => jobLog w = l)
                (let! _ := (match j with
                            | SwitchNodeJob ref leave => switchNode ref leave
                            end) in
                 let! rate := gets (fun w => failoverRate (config w)) in
                 let! _ := setTimeout CheckFailover rate in
                 ret tt)).
  { apply preserves_bind; [destruct j; apply switchNode_jobLog|intros _].
    open_defs. walk ltac:(assumption). }
  specialize (H w1 eq_refl).
  unfold processQueue, run_job. unfold bind at 1 2. unfold modify at 1.
  fold l. fold w1. unfold bind at 1 in H. 
  destruct j as [ref leave]. 
  destruct (switchNode ref leave w1) as [[] w2|e w2]; exact H.
Qed.

(** C6, what the code does.  The failover queue is empty in every state
    the manager reaches, since a job is only ever appended to a queue that
    is not empty; so every job handed to [queueFailover] runs at the
    moment it is queued, whatever [failoverLimit] and [failoverRate] are.
    With the defaults (1 job per 250 ms) and three sessions on a node,
    the node's disconnect runs the three failover jobs at the same
    instant, in submission order, and schedules three checks of an empty
    queue. *)
Theorem failover_not_rate_limited :
  (forall client ns o (evs : list Event),
      failoverQueue (run (constructor client ns o) evs) = []) /\
  (forall client ns o (evs : list Event) (j : Job),
      let w := run (constructor client ns o) evs in
      jobLog (final (queueFailover j w)) = jobLog w ++ [(now w, j)]) /\
  (let w := step Scenario.three (SocketClose 1%nat) in
   failoverLimit (config w) = 1 /\ failoverRate (config w) = 250 /\
   jobLog w = [(0, SwitchNodeJob 4 true); (0, SwitchNodeJob 8 true);
               (0, SwitchNodeJob 12 true)] /\
   failoverQueue w = [] /\
   (t_due <$> List.filter (fun t => match t_task t with
                                    | CheckFailover => true
                                    | _ => false
                                    end) (timers w))
   = [250; 250; 250]).
Proof.
  assert (Hidle : forall client ns o evs,
             failoverQueue (run (constructor client ns o) evs) = []).
  { intros client ns o evs.
    apply (run_preserves idle); [exact handle_idle|easy|].
    apply (constructor_preserves idle client ns o);
      [exact handle_idle|easy|reflexivity|reflexivity]. }
  split; [exact Hidle|]. split.
  - intros client ns o evs j w.
    unfold queueFailover, bind at 1, gets. unfold w at 1. rewrite Hidle.
    apply processQueue_jobLog.
  - vm_compute. repeat split.
Qed.

(** *** Pending joins *)

Lemma quiescent_step w ev :
  quiescent w -> Scenario.internal ev = true -> step w ev = w.
Proof.
  intros (Ht & Hk & Hm) Hev. destruct ev; try discriminate;
    unfold step, top, handle, bind, gets.
  - rewrite Ht. reflexivity.
  - rewrite Hk. reflexivity.
  - rewrite Hm. reflexivity.
Qed.

Lemma quiescent_run w evs :
  quiescent w -> forallb Scenario.internal evs = true -> run w evs = w.
Proof.
  intros Hq. induction evs as [|ev evs IH]; [reflexivity|].
  cbn. intros [Hev Hevs]%andb_prop. rewrite quiescent_step by assumption.
  now apply IH.
Qed.

(** C3, what the code does.  A pending join can be left with none of the
    three outcomes: [join] on a guild whose session is already in the
    requested channel registers a pending entry; the voice-server signal
    cancels its timer and, the session being registered, sends no
    handshake, so no [ready] follows.  The entry stays, its promise
    unsettled, with nothing scheduled: no run of callbacks or timers
    changes that world.  And an entry can be removed by none of them: a
    second [join] on a guild replaces the entry of the first, whose timer
    stays armed; after the session of the second is ready, that timer
    rejects the first promise with the timeout and tells the node to
    release the session that is live. *)
Theorem pending_join_outcomes :
  (let w := Scenario.play_out Scenario.live
              [Scenario.call_join "g1" "c1"; Scenario.server_update "g1"] in
   pendingGuilds w !! "g1"
     = Some {| pg_channelId := Js.VStr "c1"; pg_options := Js.VObj [];
               pg_player := Some 4%nat; pg_node := 0%nat;
               pg_promise := 6%nat; pg_timeout := None |} /\
   promises w !! 6%nat = Some {| pr_cont := Caller; pr_outcome := None |} /\
   timers w = [] /\ ticks w = [] /\ micro w = [] /\
   forall evs, forallb Scenario.internal evs = true -> run w evs = w) /\
  (let w := Scenario.play_out Scenario.pool
              [Scenario.call_join "g1" "c1"; Scenario.call_join "g1" "c1"] in
   pg_promise <$> pendingGuilds w !! "g1" = Some 4%nat /\
   promises w !! 2%nat = Some {| pr_cont := Caller; pr_outcome := None |} /\
   t_task <$> timers w = [JoinTimeout "g1" 0 2; JoinTimeout "g1" 0 4]) /\
  (let w := Scenario.play_out Scenario.pool
              [Scenario.call_join "g1" "c1"; Scenario.call_join "g1" "c1";
               Scenario.server_update "g1"; TimerFires 3%nat] in
   promises w !! 4%nat
     = Some {| pr_cont := Caller; pr_outcome := Some (Resolved 6) |} /\
   promises w !! 2%nat
     = Some {| pr_cont := Caller;
               pr_outcome := Some (Rejected (error "Voice connection timeout")) |} /\
   JsMap.get (KStr "g1") (registry w) = Some 6%nat /\
   last (s_frames (default {| s_node := 0; s_frames := [];
                              s_closeListener := false; s_closed := false |}
                           (sockets w !! 1%nat)))
   = Some (Player.disconnect_payload "g1")).
Proof.
  split; [|split].
  - set (w := Scenario.play_out _ _).
    assert (Hq : quiescent w) by (vm_compute; repeat split).
    split; [vm_compute; reflexivity|].
    split; [vm_compute; reflexivity|].
    split; [exact (proj1 Hq)|].
    split; [exact (proj1 (proj2 Hq))|].
    split; [exact (proj2 (proj2 Hq))|].
    intros evs Hevs. exact (quiescent_run w evs Hq Hevs).
  - vm_compute. repeat split.
  - vm_compute. repeat split.
Qed.

(** *** Raw relay *)

(** C9, what the code does.  The ['sendWS'] case forwards the payload to
    the gateway and then falls into the ['playerUpdate'] case: a relay
    message that carries the guild id of a session has its [state] handed
    to that session's state-update handler, which replaces the session's
    state (by [undefined] when the message has no [state]).  A relay
    message without guild id falls through as well and finds no
    session. *)
Theorem sendWS_falls_through :
  Player.state <$> players Scenario.live !! 4%nat = Some (Js.VObj []) /\
  (let w := Scenario.after Scenario.live
              (SocketMessage 1%nat
                 (Some (Scenario.relay
                          [("guildId", Js.VStr "g1");
                           ("state", Js.VObj [("position", Js.VNum 1000)])]))) in
   length (gateway w) = 1%nat /\
   Player.state <$> players w !! 4%nat
     = Some (Js.VObj [("position", Js.VNum 1000)])) /\
  (let w := Scenario.after Scenario.live
              (SocketMessage 1%nat
                 (Some (Scenario.relay [("guildId", Js.VStr "g1")]))) in
   Player.state <$> players w !! 4%nat = Some Js.VUndef) /\
  (let w := Scenario.after Scenario.live
              (SocketMessage 1%nat (Some (Scenario.relay []))) in
   length (gateway w) = 1%nat /\
   players w = players Scenario.live /\
   registry w = registry Scenario.live) /\
  (forall node message,
      onMessage node (Js.VObj (("op", Js.VStr "sendWS") :: message))
      = (let! _ := sendWS (Js.VObj (("op", Js.VStr "sendWS") :: message)) in
         playerUpdate (Js.VObj (("op", Js.VStr "sendWS") :: message)))).
Proof.
  split; [vm_compute; reflexivity|].
  split; [vm_compute; split; reflexivity|].
  split; [vm_compute; reflexivity|].
  split; [vm_compute; repeat split|].
  intros node message. reflexivity.
Qed.

End ManagerClaims.
(** ** Numbers *)

Module NumberFacts.

(** Rounding keeps the sign, and gives no zero from a quotient of at least
    a unit. *)
Lemma round_cases neg p q :
  0 <= p -> 0 < q ->
  Js.round neg p q = Js.Inf neg \/
  exists m, Js.round neg p q = Js.Fin neg m /\ 0 <= m /\ (q <= p -> 0 < m).
Proof.
  intros Hp Hq. unfold Js.round.
  set (v := p / q). set (s := Z.max 0 (Z.log2 v - 52)).
  set (den := q * 2 ^ s). set (k := p / den). set (r := p mod den).
  set (k' := if Z.ltb (2 * r) den then k
             else if Z.ltb den (2 * r) then k + 1
             else if Z.even k then k else k + 1).
  assert (Hs : 0 <= s) by lia.
  assert (H2 : 0 < 2 ^ s) by (apply Z.pow_pos_nonneg; lia).
  assert (Hden : 0 < den) by (unfold den; nia).
  assert (Hk : 0 <= k) by (apply Z.div_pos; lia).
  assert (Hk' : k <= k').
  { unfold k'. destruct (Z.ltb _ _); [lia|].
    destruct (Z.ltb _ _); [lia|]. destruct (Z.even k); lia. }
  destruct (Z.leb _ _); [now left|right].
  exists (k' * 2 ^ s). split; [reflexivity|]. split; [nia|].
  intros Hqp.
  assert (Hv : 1 <= v) by (unfold v; apply Z.div_le_lower_bound; lia).
  assert (Hvs : 2 ^ s <= v).
  { destruct (Z.le_gt_cases (Z.log2 v - 52) 0) as [Hl|Hl].
    - replace s with 0 by lia. cbn. lia.
    - replace s with (Z.log2 v - 52) by lia.
      pose proof (Z.log2_spec v ltac:(lia)) as [Hlo _].
      eapply Z.le_trans; [|exact Hlo].
      apply Z.pow_le_mono_r; lia. }
  assert (Hk1 : 1 <= k).
  { unfold k, den. rewrite <- Z.div_div by lia. fold v.
    apply Z.div_le_lower_bound; lia. }
  nia.
Qed.

Lemma sub_nan_l y : Js.sub Js.NaN y = Js.NaN.
Proof. reflexivity. Qed.

Lemma sub_nan_r x : Js.sub x Js.NaN = Js.NaN.
Proof. destruct x; reflexivity. Qed.

(** The comparator's test: [x - y > 0] exactly when [y < x]. *)
Lemma positive_sub x y : Js.positive (Js.sub x y) = Js.ltb y x.
Proof.
  destruct x as [s m|s|], y as [s' m'|s'|]; try reflexivity.
  - unfold Js.sub, Js.opp, Js.add.
    set (z := Js.signed s m + Js.signed (negb s') m').
    assert (Hz : z = Js.signed s m - Js.signed s' m').
    { unfold z, Js.signed. destruct s'; cbn; lia. }
    change (Js.ltb (Js.Fin s' m') (Js.Fin s m))
      with (Z.ltb (Js.signed s' m') (Js.signed s m)).
    destruct (Z.eqb_spec z 0) as [H0|H0].
    + transitivity false.
      * unfold Js.positive, Js.zero, Js.ltb, Js.signed.
        destruct (s && _ && _ && _); reflexivity.
      * symmetry. apply Z.ltb_ge. lia.
    + destruct (round_cases (Z.ltb z 0) (Z.abs z) 1) as [->|(k & -> & Hk & Hpos)];
        [lia|lia| |].
      * unfold Js.positive, Js.zero, Js.ltb.
        destruct (Z.ltb_spec z 0); cbn; symmetry;
          [apply Z.ltb_ge|apply Z.ltb_lt]; lia.
      * specialize (Hpos ltac:(lia)).
        unfold Js.positive, Js.zero, Js.ltb, Js.signed at 1 2.
        destruct (Z.ltb_spec z 0).
        -- transitivity false; [apply Z.ltb_ge; lia|symmetry; apply Z.ltb_ge; lia].
        -- transitivity true; [apply Z.ltb_lt; lia|symmetry; apply Z.ltb_lt; lia].
  - destruct s'; reflexivity.
  - destruct s, s'; reflexivity.
Qed.

Ltac order :=
  unfold Js.leb, Js.ltb, Js.eqb, Js.signed in *;
  repeat match goal with
         | s : bool |- _ => destruct s
         end;
  cbn in *;
  rewrite ?orb_true_iff, ?orb_false_iff, ?Z.ltb_lt, ?Z.ltb_ge, ?Z.eqb_eq,
    ?Z.eqb_neq in *;
  try discriminate; try tauto; try lia.

Lemma leb_refl x : Js.is_nan x = false -> Js.leb x x = true.
Proof. destruct x as [s m|s|]; intros H; order. Qed.

Lemma ltb_leb x y : Js.ltb x y = true -> Js.leb x y = true.
Proof. unfold Js.leb. now intros ->. Qed.

Lemma leb_total x y :
  Js.is_nan x = false -> Js.is_nan y = false ->
  Js.ltb y x = false -> Js.leb x y = true.
Proof.
  destruct x as [s m|s|], y as [s' m'|s'|]; intros Hx Hy H; order.
Qed.

Lemma leb_trans x y z :
  Js.leb x y = true -> Js.leb y z = true -> Js.leb x z = true.
Proof.
  destruct x as [s m|s|], y as [s' m'|s'|], z as [s'' m''|s''|];
    intros H1 H2; order.
Qed.

Lemma leb_not_nan x y :
  Js.leb x y = true -> Js.is_nan x = false /\ Js.is_nan y = false.
Proof. destruct x as [s m|s|], y as [s' m'|s'|]; intros H; order; now split. Qed.

End NumberFacts.

(** ** PlayerManager.js: node selection *)

Module SelectionFacts.
Import PlayerManager NumberFacts.

Section Sort.
Context {A : Type} (gt : A -> A -> bool).

Lemma insert_perm x l : Permutation (insert gt x l) (x :: l).
Proof.
  induction l as [|y l IH]; cbn; [reflexivity|].
  destruct (gt x y); [|reflexivity].
  rewrite IH. apply perm_swap.
Qed.

Lemma sort_perm l : Permutation (sort gt l) l.
Proof.
  induction l as [|x l IH]; cbn; [reflexivity|].
  rewrite insert_perm. now constructor.
Qed.

Lemma sort_nil l : sort gt l = [] -> l = [].
Proof.
  intros H. apply Permutation_nil. rewrite <- H. exact (sort_perm l).
Qed.

Lemma head_insert x l r :
  head (insert gt x l) = Some r ->
  (r = x /\ forall h, head l = Some h -> gt x h = false) \/
  (head l = Some r /\ gt x r = true).
Proof.
  destruct l as [|h l]; cbn.
  - intros [= <-]. left. split; [reflexivity|discriminate].
  - destruct (gt x h) eqn:Hg; cbn; intros [= <-].
    + right. now split.
    + left. split; [reflexivity|]. now intros ? [= <-].
Qed.
End Sort.

Lemma after_true a b : after a b = true -> load_le b a.
Proof.
  unfold after, load_le. rewrite positive_sub. apply ltb_leb.
Qed.

Lemma after_false a b :
  Js.is_nan (load a) = false -> Js.is_nan (load b) = false ->
  after a b = false -> load_le a b.
Proof.
  unfold after, load_le. rewrite positive_sub. now apply leb_total.
Qed.

Lemma load_le_refl a : Js.is_nan (load a) = false -> load_le a a.
Proof. apply leb_refl. Qed.

Lemma load_le_trans a b c : load_le a b -> load_le b c -> load_le a c.
Proof. apply leb_trans. Qed.

(** The head of the sorted array has the least load, when no load is
    [NaN]. *)
Lemma head_sort_least l r :
  Forall (fun x => Js.is_nan (load x.2) = false) l ->
  head (sort by_load l) = Some r ->
  forall m, In m l -> load_le r.2 m.2.
Proof.
  revert r. induction l as [|a l IH]; intros r Hn Hr m Hm; [destruct Hm|].
  apply Forall_cons in Hn as [Ha Hn]. cbn [sort foldr] in Hr.
  fold (sort by_load l) in Hr.
  apply head_insert in Hr as [[-> Hh]|[Hh Hg]].
  - destruct Hm as [<-|Hm]; [now apply load_le_refl|].
    destruct (sort by_load l) as [|h t] eqn:Hs.
    + apply sort_nil in Hs. subst. destruct Hm.
    + apply load_le_trans with h.2.
      * apply after_false; [exact Ha| |exact (Hh h eq_refl)].
        assert (Hin : In h l).
        { apply (Permutation_in h (sort_perm by_load l)). rewrite Hs. now left. }
        rewrite Forall_forall in Hn. apply Hn, list_elem_of_In, Hin.
      * apply IH; [exact Hn|reflexivity|exact Hm].
  - destruct Hm as [<-|Hm]; [now apply after_true|].
    now apply IH.
Qed.

(** The array the code sorts is the choice set, in a pool where no node
    has the empty string for its region. *)
Lemma ideal_choice region all :
  Forall (fun x => Lavalink.region x.2 <> Some "") all ->
  ideal region all = head (sort by_load (choice_set region all)).
Proof.
  intros Hr. unfold ideal, choice_set, regional, candidates.
  destruct (String.eqb_spec region "") as [->|Hne]; cbn [negb].
  - assert (Hnone : List.filter (fun x => in_region "" x.2)
                      (List.filter (fun x => eligible x.2) all) = []).
    { induction all as [|x all IH]; [reflexivity|].
      apply Forall_cons in Hr as [Hx Hr]. cbn.
      destruct (eligible x.2); cbn; [|now apply IH].
      unfold in_region at 1. rewrite bool_decide_false by exact Hx.
      now apply IH. }
    rewrite Hnone. reflexivity.
  - destruct (List.filter _ (List.filter _ all)) eqn:Hf; reflexivity.
Qed.

Lemma choice_set_nil region all :
  choice_set region all = [] <-> candidates all = [].
Proof.
  unfold choice_set. destruct (regional region all) eqn:Hr; [reflexivity|].
  split; [discriminate|]. unfold regional in Hr. intros H. rewrite H in Hr.
  discriminate.
Qed.

Lemma choice_set_incl region all x :
  In x (choice_set region all) -> In x (candidates all).
Proof.
  unfold choice_set. destruct (regional region all) eqn:Hr; [easy|].
  rewrite <- Hr. unfold regional. now intros [H _]%filter_In.
Qed.

(** Whatever the regions, no node is returned exactly when none is
    considered. *)
Lemma ideal_none region all : candidates all = [] -> ideal region all = None.
Proof.
  intros H. unfold ideal. fold (candidates all). rewrite H. cbn.
  destruct (negb _); reflexivity.
Qed.

Lemma ideal_some region all :
  candidates all <> [] -> is_Some (ideal region all).
Proof.
  intros H. unfold ideal. fold (candidates all).
  set (nodes := if negb (String.eqb region "") then _ else _).
  assert (Hn : nodes <> []).
  { unfold nodes. destruct (negb _); [|exact H].
    destruct (List.filter _ (candidates all)) eqn:Hf; [exact H|discriminate]. }
  destruct (sort _ nodes) eqn:Hs; cbn; [|eauto].
  apply sort_nil in Hs. contradiction.
Qed.

End SelectionFacts.

Module SelectionClaims.
Import PlayerManager SelectionFacts ManagerFacts.

(** *** The regions of the nodes *)

Lemma or_str_set x : Lavalink.or_str x <> Some "".
Proof.
  destruct x as [s|]; cbn; [|discriminate].
  destruct (String.eqb_spec s ""); [discriminate|congruence].
Qed.

Lemma region_constructor o sock :
  Lavalink.region (Lavalink.constructor o sock).1 <> Some "".
Proof. apply or_str_set. Qed.

Lemma region_ready n : Lavalink.region (Lavalink.ready n).1 = Lavalink.region n.
Proof. unfold Lavalink.ready. destruct (Lavalink.reconnectInterval n); reflexivity. Qed.

Lemma region_notice n :
  Lavalink.region (Lavalink.disconnected_notice n).1 = Lavalink.region n.
Proof. reflexivity. Qed.

Lemma region_rest h n :
  Lavalink.region (Lavalink.disconnected_rest h n).1 = Lavalink.region n.
Proof.
  unfold Lavalink.disconnected_rest. cbn.
  destruct (Lavalink.reconnectInterval n); reflexivity.
Qed.

Lemma region_reconnect h sock n :
  Lavalink.region (Lavalink.reconnect h sock n).1 = Lavalink.region n.
Proof. reflexivity. Qed.

Lemma region_onMessage data n r :
  Lavalink.onMessage data n = Some r -> Lavalink.region r.1 = Lavalink.region n.
Proof.
  unfold Lavalink.onMessage. destruct data as [d|]; [|now intros [= <-]].
  destruct (Js.get "op" d) as [op|]; cbn; [|discriminate].
  intros [= <-]. cbn. destruct (_ && _); reflexivity.
Qed.

Lemma regions_insert w ref n :
  regions_set w -> Lavalink.region n <> Some "" ->
  regions_set (set_lavalinks (<[ref := n]> (lavalinks w)) w).
Proof.
  intros Hw Hn ref' n'. cbn. destruct (decide (ref' = ref)) as [->|Hne].
  - rewrite lookup_insert_eq. now intros [= <-].
  - rewrite lookup_insert_ne by congruence. apply Hw.
Qed.

Lemma preserves_bind_node_of {B} ref (k : Lavalink.t -> M B) :
  (forall n, Lavalink.region n <> Some "" -> preserves regions_set (k n)) ->
  preserves regions_set (bind (node_of ref) k).
Proof.
  intros Hk w Hw. unfold node_of. unfold bind, the, gets, ret, throw.
  destruct (lavalinks w !! ref) as [n|] eqn:E; [|exact Hw].
  apply Hk; [exact (Hw ref n E)|exact Hw].
Qed.

Lemma preserves_bind_the_eq (P : World -> Prop) {A B} e (o : option A)
    (k : A -> M B) :
  (forall a, o = Some a -> preserves P (k a)) ->
  preserves P (bind (the e o) k).
Proof.
  intros Hk w Hw. unfold bind, the, ret, throw.
  destruct o as [a|]; cbn; [|exact Hw]. now apply Hk.
Qed.

Ltac open_but_node_of :=
  unfold handle, run_timer, run_micro, rejoined, run_tick, node_act,
    node_emit, onMessage, event, playerUpdate, sendWS, isConnectedReq,
    validationReq, onRaw, voiceServerUpdate, leave, join_timeout,
    join_resume, join, removeNode, createNode, onReady, onDisconnect,
    onError, queueFailover, checkFailoverQueue, processQueue, run_job,
    disconnect, stop, play, act_result, act, perform, switchNode,
    getRegionFromData, findIdealNode, emit, call_listener,
    disconnectHandler, readyHandler, remove_listener, add_listener,
    pending_delete, pending_of, reg_delete, reg_set, reg_get, new_promise,
    settle, node_send, node_effect, on_socket, client_error, gateway_send,
    enqueue, nextTick, clearTimeout, setTimeout, put_node,
    put_player, player_of, alloc.

Ltac region_side :=
  first
    [ assumption
    | cbv beta; apply regions_insert; [assumption|];
      rewrite ?region_ready, ?region_notice, ?region_rest, ?region_reconnect;
      first [ assumption
            | apply region_constructor
            | match goal with
              | H : Lavalink.onMessage _ _ = Some _ |- _ =>
                  rewrite (region_onMessage _ _ _ H); assumption
              end ] ].

Ltac walk_regions :=
  repeat first
    [ lazymatch goal with
      | |- preserves _ (bind (node_of _) _) =>
          apply preserves_bind_node_of; intros ? ?
      | |- preserves _ (bind (the _ (Lavalink.onMessage _ _)) _) =>
          apply preserves_bind_the_eq; intros ? ?
      end
    | walk1 ltac:(region_side) ].

Lemma handle_regions_set ev : preserves regions_set (handle ev).
Proof. destruct ev; open_but_node_of; walk_regions. Qed.

(** *** join without a node *)

Lemma findIdealNode_none region w :
  candidates (node_values w) = [] -> findIdealNode region w = Ok None w.
Proof.
  intros H. unfold findIdealNode, gets. now rewrite ideal_none.
Qed.

Lemma join_no_node w g c r :
  match JsMap.get (KStr g) (registry w) with
  | None => True
  | Some ref => exists p, players w !! ref = Some p /\
                          Js.strict_eq (Player.channelId p) c = true
  end ->
  candidates (node_values w) = [] ->
  micro w = [] ->
  let w' := run w [CallJoin g c (Scenario.join_options r) None; RunMicro] in
  promises w' !! fresh w
    = Some {| pr_cont := Caller;
              pr_outcome := Some (Rejected (Js.VStr "No available voice nodes.")) |} /\
  pendingGuilds w' = pendingGuilds w /\ sockets w' = sockets w /\
  timers w' = timers w /\ registry w' = registry w /\
  players w' = players w /\ micro w' = [] /\ uncaught w' = uncaught w.
Proof.
  intros Hreg Hc Hm w'.
  assert (Hj : exists o p,
    join g c (Scenario.join_options r) None Caller w
    = Ok (fresh w)
        (set_micro [JoinResume g c o p None (fresh w)]
           (set_promises
              (<[fresh w := {| pr_cont := Caller; pr_outcome := None |}]>
                 (promises w))
              (set_fresh (S (fresh w)) w)))).
  { unfold join, reg_get, new_promise, alloc, player_of, getRegionFromData, enqueue.
    unfold bind, gets, modify, ret. cbn.
    destruct (JsMap.get (KStr g) (registry w)) as [ref|]; cbn.
    - destruct Hreg as (p & -> & Hp). cbn.
      rewrite Hp. cbn.
      destruct r as [s|]; cbn.
      + destruct (String.eqb s ""); cbn;
          erewrite ideal_none by exact Hc; cbn; rewrite Hm; eauto.
      + erewrite ideal_none by exact Hc. cbn. rewrite Hm. eauto.
    - destruct r as [s|]; cbn.
      + destruct (String.eqb s ""); cbn;
          erewrite ideal_none by exact Hc; cbn; rewrite Hm; eauto.
      + erewrite ideal_none by exact Hc. cbn. rewrite Hm. eauto. }
  destruct Hj as (o & p & Hj).
  assert (H1 : step w (CallJoin g c (Scenario.join_options r) None)
               = set_micro [JoinResume g c o p None (fresh w)]
                   (set_promises
                      (<[fresh w := {| pr_cont := Caller; pr_outcome := None |}]>
                         (promises w))
                      (set_fresh (S (fresh w)) w))).
  { unfold step, top. cbn [handle]. unfold bind. rewrite Hj. reflexivity. }
  unfold w', run. cbn [fold_left]. rewrite H1.
  unfold step, top, handle, run_micro, join_resume, settle.
  unfold bind, gets, modify, ret. cbn. rewrite lookup_insert_eq. cbn.
  rewrite lookup_insert_eq. repeat split.
Qed.

(** *** The choice of a node *)

(** C2, the claim as stated, fails in two places.  (1) A node can be
    connected and not draining and still not be considered: after a race
    of two sockets the node of the pool has [connected = true] and no
    socket, [findIdealNode] returns nothing and [join] is rejected for
    want of a node.  (2) With a load that is not a number among the
    candidates (here 0 / 0, from a node that reports 0 cores) the node
    returned need not have the least load: of three nodes of the region
    with loads 1250, [NaN] and 2.5, in this order, the first is
    returned. *)
Lemma findIdealNode_not_as_stated :
  (Lavalink.connected <$> lavalinks Scenario.raced !! 0%nat = Some true /\
   Lavalink.draining <$> lavalinks Scenario.raced !! 0%nat = Some false /\
   Lavalink.ws <$> lavalinks Scenario.raced !! 0%nat = Some None /\
   JsMap.get "n1" (nodes Scenario.raced) = Some 0%nat /\
   findIdealNode "us" Scenario.raced = Ok None Scenario.raced /\
   promises (Scenario.after Scenario.raced (Scenario.call_join "g1" "c1"))
     !! fresh Scenario.raced
   = Some {| pr_cont := Caller;
             pr_outcome := Some (Rejected (Js.VStr "No available voice nodes.")) |}) /\
  (let a := Scenario.loaded "a" 1 50 in
   let b := Lavalink.set_stats
              (Js.VObj [("cpu", Js.VObj [("cores", Js.VNum 0);
                                         ("systemLoad", Js.VNum 0)])])
              (Scenario.loaded "b" 2 0) in
   let c := Scenario.loaded "c" 3 (1 # 10) in
   let pool := [(0%nat, a); (1%nat, b); (2%nat, c)] in
   load a = 1250 /\ load b = Js.NaN /\ load c = (5 # 2)%Q /\
   choice_set "eu" pool = pool /\
   ideal "eu" pool = Some (0%nat, a) /\
   Js.ltb (load c) (load a) = true /\ ~ load_le a c).
Proof.
  split.
  - vm_compute. repeat split.
  - vm_compute. repeat split. intros H. discriminate H.
Qed.

Lemma candidates_spec all x :
  In x (candidates all) <->
  In x all /\ Lavalink.draining x.2 = false /\ is_Some (Lavalink.ws x.2) /\
  Lavalink.connected x.2 = true.
Proof.
  unfold candidates, eligible. rewrite filter_In, !andb_true_iff, negb_true_iff.
  rewrite bool_decide_eq_true. tauto.
Qed.

Lemma regional_spec region all x :
  In x (regional region all) <->
  In x (candidates all) /\ Lavalink.region x.2 = Some region.
Proof.
  unfold regional, in_region. rewrite filter_In, bool_decide_eq_true. tauto.
Qed.

Lemma reachable_regions client ns o evs :
  regions_set (run (constructor client ns o) evs).
Proof.
  apply run_preserves; [exact handle_regions_set|easy|].
  apply (constructor_preserves regions_set client ns o);
    [exact handle_regions_set|easy| |reflexivity].
  intros cfg ref n. cbn. now rewrite lookup_empty.
Qed.

Lemma node_values_regions w :
  regions_set w ->
  Forall (fun x => Lavalink.region x.2 <> Some "") (node_values w).
Proof.
  intros Hw. unfold node_values.
  induction (JsMap.values (nodes w)) as [|ref l IH]; [constructor|].
  cbn [omap list_omap]. destruct (lavalinks w !! ref) as [n|] eqn:E; cbn.
  - constructor; [exact (Hw ref n E)|exact IH].
  - exact IH.
Qed.

Lemma ideal_least region all r :
  Forall (fun x => Lavalink.region x.2 <> Some "") all ->
  ideal region all = Some r ->
  In r (choice_set region all) /\
  (Forall (fun x => Js.is_nan (load x.2) = false) (choice_set region all) ->
   forall m, In m (choice_set region all) -> load_le r.2 m.2).
Proof.
  intros Hall Hr. rewrite ideal_choice in Hr by exact Hall. split.
  - apply (Permutation_in r (sort_perm by_load (choice_set region all))).
    destruct (sort by_load (choice_set region all)); [discriminate|].
    injection Hr as ->. now left.
  - intros Hn m Hm. now apply (head_sort_least (choice_set region all)).
Qed.

(** C2, amended.  [findIdealNode] considers exactly the nodes of the pool
    that are connected, hold a socket and are not draining.  If at least
    one considered node has the requested region the choice is made among
    those, otherwise among all considered nodes.  It returns no node
    exactly when no node is considered; a node it returns is in the set
    the choice is made among and, when none of the loads computed for
    that set is [NaN], no node of the set has a smaller load: the load of
    the returned node is at most that of each of them.  The load is 0 for
    a node without cpu statistics and systemLoad / cores * 100 otherwise,
    in the arithmetic of doubles.  This holds of every pool in which no
    node has the empty string for its region, and the pool of a manager is
    such a pool in every state the manager reaches.  A [join] that comes
    to the selection and finds no node to consider rejects its promise
    with "No available voice nodes." once it resumes; no pending entry is
    registered, no timer set and nothing sent. *)
Theorem findIdealNode_choice :
  (forall (region : string) (all : list (nat * Lavalink.t)),
      (forall x, In x (candidates all) <->
                 In x all /\ Lavalink.connected x.2 = true /\
                 is_Some (Lavalink.ws x.2) /\ Lavalink.draining x.2 = false) /\
      (forall x, In x (regional region all) <->
                 In x (candidates all) /\ Lavalink.region x.2 = Some region) /\
      ((exists x, In x (candidates all) /\ Lavalink.region x.2 = Some region) ->
       choice_set region all = regional region all) /\
      ((forall x, In x (candidates all) -> Lavalink.region x.2 <> Some region) ->
       choice_set region all = candidates all) /\
      (ideal region all = None <-> candidates all = [])) /\
  (forall (region : string) (all : list (nat * Lavalink.t)) r,
      Forall (fun x => Lavalink.region x.2 <> Some "") all ->
      ideal region all = Some r ->
      In r (choice_set region all) /\
      (Forall (fun x => Js.is_nan (load x.2) = false) (choice_set region all) ->
       forall m, In m (choice_set region all) ->
                 Js.leb (load r.2) (load m.2) = true)) /\
  (forall client ns o (evs : list Event) (region : string),
      let w := run (constructor client ns o) evs in
      Forall (fun x => Lavalink.region x.2 <> Some "") (node_values w) /\
      findIdealNode region w = Ok (fst <$> ideal region (node_values w)) w /\
      forall r, ideal region (node_values w) = Some r ->
        In r (choice_set region (node_values w)) /\
        (Forall (fun x => Js.is_nan (load x.2) = false)
                (choice_set region (node_values w)) ->
         forall m, In m (choice_set region (node_values w)) ->
                   Js.leb (load r.2) (load m.2) = true)) /\
  (forall (n : Lavalink.t),
      Js.truthy (field "cpu" (Lavalink.stats n)) = false -> load n = Js.zero) /\
  (forall (n : Lavalink.t),
      Js.truthy (field "cpu" (Lavalink.stats n)) = true ->
      load n
      = Js.mul
          (Js.div
             (Js.to_number (field "systemLoad" (field "cpu" (Lavalink.stats n))))
             (Js.to_number (field "cores" (field "cpu" (Lavalink.stats n)))))
          (Js.of_Z 100)) /\
  (forall (w : World) g c r,
      match JsMap.get (KStr g) (registry w) with
      | None => True
      | Some ref => exists p, players w !! ref = Some p /\
                              Js.strict_eq (Player.channelId p) c = true
      end ->
      candidates (node_values w) = [] ->
      micro w = [] ->
      let w' := run w [CallJoin g c (Scenario.join_options r) None; RunMicro] in
      promises w' !! fresh w
        = Some {| pr_cont := Caller;
                  pr_outcome := Some (Rejected (Js.VStr "No available voice nodes.")) |} /\
      pendingGuilds w' = pendingGuilds w /\ sockets w' = sockets w /\
      timers w' = timers w /\ registry w' = registry w /\
      players w' = players w /\ micro w' = [] /\ uncaught w' = uncaught w).
Proof.
  split; [|split; [|split; [|split; [|split]]]].
  - intros region all.
    split; [intros x; rewrite candidates_spec; tauto|].
    split; [apply regional_spec|]. split; [|split].
    + intros (x & Hx & Hr). unfold choice_set.
      destruct (regional region all) eqn:E; [|reflexivity].
      assert (Hin : In x (regional region all)) by (apply regional_spec; auto).
      rewrite E in Hin. destruct Hin.
    + intros Hnone. unfold choice_set.
      destruct (regional region all) as [|x l] eqn:E; [reflexivity|].
      assert (Hin : In x (regional region all)) by (rewrite E; now left).
      apply regional_spec in Hin as [Hc Hr]. now destruct (Hnone x Hc).
    + split; [|apply ideal_none]. intros Hn.
      destruct (candidates all) eqn:Hc; [reflexivity|].
      destruct (ideal_some region all) as [r Hr]; [now rewrite Hc|congruence].
  - intros region all r Hall Hr. exact (ideal_least region all r Hall Hr).
  - intros client ns o evs region w.
    assert (Hall : Forall (fun x => Lavalink.region x.2 <> Some "") (node_values w))
      by apply node_values_regions, reachable_regions.
    split; [exact Hall|]. split; [reflexivity|].
    intros r Hr. exact (ideal_least region (node_values w) r Hall Hr).
  - intros n H. unfold load. fold (field "cpu" (Lavalink.stats n)).
    now rewrite H.
  - intros n H. unfold load. fold (field "cpu" (Lavalink.stats n)).
    now rewrite H.
  - exact join_no_node.
Qed.

Lemma findIdealNode_choice_witness :
  let a := Lavalink.set_stats
             (Js.VObj [("cpu", Js.VObj [("cores", Js.VNum 0);
                                        ("systemLoad", Js.VNum 1)])])
             (Scenario.loaded "a" 1 0) in
  let b := Scenario.loaded "b" 2 (2 # 10) in
  load a = Js.Inf false /\
  ideal "eu" [(0%nat, a); (1%nat, b)] = Some (1%nat, b) /\
  Js.leb (load b) (load a) = true /\ Js.leb (load b) (load b) = true.
Proof.
  intros a b.
  assert (Hi : ideal "eu" [(0%nat, a); (1%nat, b)] = Some (1%nat, b))
    by (vm_compute; reflexivity).
  destruct findIdealNode_choice as (_ & H & _).
  destruct (H "eu" [(0%nat, a); (1%nat, b)] (1%nat, b)) as [_ Hmin].
  - repeat constructor; discriminate.
  - exact Hi.
  - assert (Hc : choice_set "eu" [(0%nat, a); (1%nat, b)]
                 = [(0%nat, a); (1%nat, b)]) by (vm_compute; reflexivity).
    rewrite Hc in Hmin.
    assert (Hn : Forall (fun x : nat * Lavalink.t => Js.is_nan (load x.2) = false)
                   [(0%nat, a); (1%nat, b)]).
    { repeat constructor; vm_compute; reflexivity. }
    split; [vm_compute; reflexivity|]. split; [exact Hi|]. split.
    + apply (Hmin Hn (0%nat, a)). now left.
    + apply (Hmin Hn (1%nat, b)). right. now left.
Defined.

End SelectionClaims.
